(** * Finite-difference Hessian over an autodiff gradient, and the
      moment-initialisation loop of the Gaussian DLM density

    A shallow embedding of

    - [stan::agrad::finite_diff_hessian_AD]
      (src/stan/math/rev/mat/functor/finite_diff_hessian_AD.hpp), and
    - the loop nest that fills [C] in [stan::prob::gaussian_dlm_log]
      (src/stan/prob/distributions/multivariate/continuous/gaussian_dlm.hpp).

    The Hessian routine is written over an arbitrary scalar type with the
    six arithmetic operations the source uses; it is instantiated with the
    real numbers (exact arithmetic), with normalised rationals (exact and
    executable) and with binary64 floating point (what [double] is). *)

From Stdlib Require Import ZArith Reals Lra QArith Qreduction Floats.
From stdpp Require Import base option list.

(** ** Scalars *)

(** The arithmetic of the source on [double]: literals, unary minus and the
    four binary operations.  No law is assumed of them. *)
Class Scalar (K : Type) : Type := {
  lit : Z -> K;            (* the literal [n.0] *)
  sneg : K -> K;           (* [-a] *)
  sadd : K -> K -> K;      (* [a + b] *)
  ssub : K -> K -> K;      (* [a - b] *)
  smul : K -> K -> K;      (* [a * b] *)
  sdiv : K -> K -> K       (* [a / b] *)
}.

#[export] Instance R_scalar : Scalar R :=
  {| lit := IZR; sneg := Ropp; sadd := Rplus; ssub := Rminus;
     smul := Rmult; sdiv := Rdiv |}.

(** Rationals kept in lowest terms, so that equal numbers are equal terms. *)
#[export] Instance Q_scalar : Scalar Q :=
  {| lit := inject_Z;
     sneg := fun a => Qred (Qopp a);
     sadd := fun a b => Qred (Qplus a b);
     ssub := fun a b => Qred (Qminus a b);
     smul := fun a b => Qred (Qmult a b);
     sdiv := fun a b => Qred (Qdiv a b) |}.

(** binary64.  The literals of the source are small integers. *)
Definition float_of_Z (z : Z) : float :=
  match z with
  | Z0 => PrimFloat.zero
  | Zpos _ => PrimFloat.of_uint63 (Uint63.of_Z z)
  | Zneg _ => PrimFloat.opp (PrimFloat.of_uint63 (Uint63.of_Z (Z.opp z)))
  end.

#[export] Instance float_scalar : Scalar float :=
  {| lit := float_of_Z; sneg := PrimFloat.opp; sadd := PrimFloat.add;
     ssub := PrimFloat.sub; smul := PrimFloat.mul; sdiv := PrimFloat.div |}.

(** ** Dense vectors and matrices *)

(** [Eigen::Matrix<double,Dynamic,Dynamic>]: the two dimensions and the
    coefficients, stored column after column. *)
Record matrix (K : Type) : Type := Matrix {
  rows : nat;
  cols : nat;
  coeffs : list K
}.
Arguments Matrix {K} _ _ _.
Arguments rows {K} _.
Arguments cols {K} _.
Arguments coeffs {K} _.

Section Dense.
Context {K : Type} `{Scalar K}.

(** Column [i] as a vector, and the coefficient in row [r], column [c]. *)
Definition col (i : nat) (m : matrix K) : list K :=
  take (rows m) (drop (i * rows m) (coeffs m)).

Definition coeff (m : matrix K) (r c : nat) : option K :=
  if decide (r < rows m ∧ c < cols m)
  then coeffs m !! (c * rows m + r) else None.

(** [m.resize(r, c)]: the storage is kept when it already holds [r * c]
    coefficients and is allocated afresh otherwise; fresh storage is not
    initialised, [junk k] stands for what happens to be at offset [k]. *)
Definition resize (junk : nat -> K) (r c : nat) (m : matrix K) : matrix K :=
  if decide (length (coeffs m) = r * c)
  then Matrix r c (coeffs m)
  else Matrix r c (junk <$> seq 0 (r * c)).

(** [m.col(i) = g]: a column block has a fixed size; assigning a vector
    of another length, or to a column that is not there, trips Eigen's
    size assertion. *)
Definition assign_col (i : nat) (g : list K) (m : matrix K)
  : option (matrix K) :=
  if decide (i < cols m ∧ length g = rows m)
  then Some (Matrix (rows m) (cols m)
               (take (i * rows m) (coeffs m) ++ g
                  ++ drop ((i + 1) * rows m) (coeffs m)))
  else None.

(** [v(i)] read and [v(i) = a] written, both range checked. *)
Definition get (v : list K) (i : nat) : option K := v !! i.

Definition put (v : list K) (i : nat) (a : K) : option (list K) :=
  if decide (i < length v) then Some (<[i := a]> v) else None.

(** Coefficient-wise expressions. [a += b] and [a -= b] need equal sizes. *)
Definition vneg (a : list K) : list K := sneg <$> a.
Definition vscale (c : K) (a : list K) : list K := smul c <$> a.
Definition vquot (a : list K) (c : K) : list K := (fun t => sdiv t c) <$> a.

Definition vadd (a b : list K) : option (list K) :=
  if decide (length a = length b) then Some (zip_with sadd a b) else None.

Definition vsub (a b : list K) : option (list K) :=
  if decide (length a = length b) then Some (zip_with ssub a b) else None.
End Dense.

(** ** The Hessian routine *)

Module Hessian.

(** The objects the routine works on: the three reference parameters
    [x] (const), [fx], [hess_fx], and the locals that live across the
    loop, [x_temp], [g_auto] and [dummy_fx_eval]. *)
Record frame (K : Type) : Type := Frame {
  x : list K;
  fx : K;
  hess_fx : matrix K;
  x_temp : list K;
  g_auto : list K;
  dummy_fx_eval : K
}.
Arguments Frame {K} _ _ _ _ _ _.
Arguments x {K} _.
Arguments fx {K} _.
Arguments hess_fx {K} _.
Arguments x_temp {K} _.
Arguments g_auto {K} _.
Arguments dummy_fx_eval {K} _.

(** What the routine asks of its environment: [gradient(f, p, v, g)],
    answered with the value [v] and the gradient [g], and the plain call
    [f(p)].  [Abort] is a failed Eigen assertion. *)
Inductive prog (K A : Type) : Type :=
| Ret (a : A)
| Abort
| Gradient (p : list K) (k : K * list K -> prog K A)
| Apply (p : list K) (k : K -> prog K A).
Arguments Ret {K A} _.
Arguments Abort {K A}.
Arguments Gradient {K A} _ _.
Arguments Apply {K A} _ _.

Fixpoint bind {K A B} (m : prog K A) (h : A -> prog K B) : prog K B :=
  match m with
  | Ret a => h a
  | Abort => Abort
  | Gradient p k => Gradient p (fun r => bind (k r) h)
  | Apply p k => Apply p (fun r => bind (k r) h)
  end.

#[export] Instance prog_bind {K} : MBind (prog K) :=
  fun A B h m => bind m h.
#[export] Instance prog_ret {K} : MRet (prog K) := fun A a => Ret a.

Definition check {K A} (o : option A) : prog K A :=
  match o with Some a => Ret a | None => Abort end.

(** [for (int i = lo; i < lo + n; ++i) body]. *)
Fixpoint for_loop {K St} (body : nat -> St -> prog K St)
    (lo n : nat) (s : St) : prog K St :=
  match n with
  | O => Ret s
  | Datatypes.S n' => s' ← body lo s; for_loop body (lo + 1) n' s'
  end.

Section Routine.
Context {K : Type} `{Scalar K}.

Definition set_x_temp (v : list K) (s : frame K) : frame K :=
  Frame (x s) (fx s) (hess_fx s) v (g_auto s) (dummy_fx_eval s).
Definition set_hess_fx (m : matrix K) (s : frame K) : frame K :=
  Frame (x s) (fx s) m (x_temp s) (g_auto s) (dummy_fx_eval s).
Definition set_fx (v : K) (s : frame K) : frame K :=
  Frame (x s) v (hess_fx s) (x_temp s) (g_auto s) (dummy_fx_eval s).
Definition set_gradient (r : K * list K) (s : frame K) : frame K :=
  Frame (x s) (fx s) (hess_fx s) (x_temp s) r.2 r.1.

(** [gradient(f, x_temp, dummy_fx_eval, g_auto);] *)
Definition call_gradient (s : frame K) : prog K (frame K) :=
  Gradient (x_temp s) (fun r => Ret (set_gradient r s)).

(** [x_temp(i) = a;] *)
Definition store_x_temp (i : nat) (a : K) (s : frame K)
  : prog K (frame K) :=
  v ← check (put (x_temp s) i a); Ret (set_x_temp v s).

(** Lines 52 to 72: the body of the loop over the dimensions. *)
Definition body (epsilon : K) (d i : nat) (s : frame K)
  : prog K (frame K) :=
  let g_diff := replicate d (lit 0) in
  t ← check (get (x_temp s) i);
  s ← store_x_temp i (sadd t (smul (lit 2) epsilon)) s;
  s ← call_gradient s;
  let g_diff := vneg (g_auto s) in

  xi ← check (get (x s) i);
  s ← store_x_temp i (sadd xi (smul (lit (-2)) epsilon)) s;
  s ← call_gradient s;
  g_diff ← check (vadd g_diff (g_auto s));

  xi ← check (get (x s) i);
  s ← store_x_temp i (sadd xi epsilon) s;
  s ← call_gradient s;
  g_diff ← check (vadd g_diff (vscale (lit 8) (g_auto s)));

  xi ← check (get (x s) i);
  s ← store_x_temp i (ssub xi epsilon) s;
  s ← call_gradient s;
  g_diff ← check (vsub g_diff (vscale (lit 8) (g_auto s)));

  xi ← check (get (x s) i);
  s ← store_x_temp i xi s;
  let g_diff := vquot g_diff (smul (lit 12) epsilon) in

  m ← check (assign_col i g_diff (hess_fx s));
  Ret (set_hess_fx m s).

(** Lines 43 to 48: [d], the working copy of [x], [g_auto(d)] with
    whatever its storage holds, and the resized result matrix.  In the
    source [d] and the loop counter are [int]s, [d] converted from
    [x.size()]; the points considered have fewer than [2^31] coordinates,
    where the conversion changes nothing and the counter cannot overflow,
    and both are natural numbers here. *)
Definition enter (junk : nat -> K) (x0 : list K) (fx0 : K)
    (hess0 : matrix K) : frame K :=
  let d := length x0 in
  Frame x0 fx0 (resize junk d d hess0) x0 (junk <$> seq 0 d) (junk 0%nat).

(** Lines 51 to 73. *)
Definition columns (epsilon : K) (n : nat) (s : frame K)
  : prog K (frame K) :=
  for_loop (body epsilon (length (x s))) 0 n s.

Definition finite_diff_hessian_AD (junk : nat -> K) (x0 : list K)
    (fx0 : K) (hess0 : matrix K) (epsilon : K) : prog K (frame K) :=
  let s := enter junk x0 fx0 hess0 in
  s ← columns epsilon (length x0) s;
  v ← Apply (x s) Ret;
  Ret (set_fx v s).

(** *** Running a program against an oracle *)

(** The calls made, in order. *)
Inductive event : Type :=
| GradientAt (p : list K)
| ApplyAt (p : list K).

Definition is_gradient_call (e : event) : bool :=
  match e with GradientAt _ => true | ApplyAt _ => false end.

Definition calls (log : list event) : nat :=
  length (filter is_gradient_call log).

(** [gradient n p] is the oracle's answer to its [n]-th call (counted
    from 0) when that call is made at [p]: the oracle may keep state,
    and answer the same point differently at different calls. *)
Variable gradient : nat -> list K -> K * list K.
Variable f : list K -> K.

Fixpoint run {A} (m : prog K A) (log : list event)
  : option A * list event :=
  match m with
  | Ret a => (Some a, log)
  | Abort => (None, log)
  | Gradient p k =>
      run (k (gradient (calls log) p)) (log ++ [GradientAt p])
  | Apply p k => run (k (f p)) (log ++ [ApplyAt p])
  end.
End Routine.

(** *** What the routine is expected to ask and to return *)

Section Stencil.
Context {K : Type} `{Scalar K}.

(** The four values coordinate [i] takes in turn, from its original [xi]. *)
Definition offsets (epsilon xi : K) : list K :=
  [ sadd xi (smul (lit 2) epsilon);
    sadd xi (smul (lit (-2)) epsilon);
    sadd xi epsilon;
    ssub xi epsilon ].

(** The four points of dimension [i]: [x0] with coordinate [i] replaced. *)
Definition probes (epsilon : K) (x0 : list K) (i : nat) : list (list K) :=
  match x0 !! i with
  | Some xi => (fun a => <[i := a]> x0) <$> offsets epsilon xi
  | None => []
  end.

(** [(-a1 + a2 + 8 a3 - 8 a4) / (12 epsilon)], in the order the source
    accumulates it. *)
Definition stencil (epsilon a1 a2 a3 a4 : K) : K :=
  sdiv (ssub (sadd (sadd (sneg a1) a2) (smul (lit 8) a3)) (smul (lit 8) a4))
       (smul (lit 12) epsilon).

(** The stencil applied coefficient by coefficient to four vectors. *)
Definition combine (epsilon : K) (g1 g2 g3 g4 : list K) : list K :=
  vquot (zip_with ssub
           (zip_with sadd (zip_with sadd (vneg g1) g2) (vscale (lit 8) g3))
           (vscale (lit 8) g4))
        (smul (lit 12) epsilon).

(** The gradient the oracle returns to call number [j] (0 to 3) of
    dimension [i], which is its call number [4 i + j] overall. *)
Definition answer (gradient : nat -> list K -> K * list K)
    (epsilon : K) (x0 : list K) (i j : nat) : list K :=
  match probes epsilon x0 i !! j with
  | Some p => (gradient (4 * i + j) p).2
  | None => []
  end.

Definition column (gradient : nat -> list K -> K * list K)
    (epsilon : K) (x0 : list K) (i : nat) : list K :=
  combine epsilon (answer gradient epsilon x0 i 0)
    (answer gradient epsilon x0 i 1) (answer gradient epsilon x0 i 2)
    (answer gradient epsilon x0 i 3).

(** The calls of the first [n] dimensions, and of a whole run. *)
Definition probe_log (epsilon : K) (x0 : list K) (n : nat) : list event :=
  i ← seq 0 n; GradientAt <$> probes epsilon x0 i.

Definition full_log (epsilon : K) (x0 : list K) : list event :=
  probe_log epsilon x0 (length x0) ++ [ApplyAt x0].

(** The oracle keeps the contract of section 6 of the specification at
    points of length [d]: the gradient has the length of the point. *)
Definition sized (gradient : nat -> list K -> K * list K) (d : nat) : Prop :=
  forall (n : nat) (p : list K),
    length p = d -> length (gradient n p).2 = d.
End Stencil.

(** *** The scenario of section 8 of the specification *)

Section Scenario.
Context {K : Type} `{Scalar K}.

(** [f(p) = p0^2 + p0 p1 + p1^2] on points of length 2. *)
Definition scenario_f (p : list K) : K :=
  match p with
  | [a; b] => sadd (sadd (smul a a) (smul a b)) (smul b b)
  | _ => lit 0
  end.

(** An oracle for it: the gradient [(2 p0 + p1, p0 + 2 p1)], and for the
    value the number of the call, which is not the value of [f]. *)
Definition scenario_gradient (n : nat) (p : list K) : K * list K :=
  (lit (Z.of_nat n),
   match p with
   | [a; b] => [sadd (smul (lit 2) a) b; sadd a (smul (lit 2) b)]
   | _ => p
   end).
End Scenario.

(** *** Quadratic forms and exact gradients, over the reals *)

Section Quadratic.
Local Open Scope R_scope.

(** Coordinate [k] of a real vector, 0 outside. *)
Definition coord (p : list R) (k : nat) : R := default 0 (p !! k).

(** [t 0 + ... + t (n - 1)]. *)
Fixpoint sum_below (n : nat) (t : nat -> R) : R :=
  match n with
  | O => 0
  | Datatypes.S n' => sum_below n' t + t n'
  end.

Definition indicator (j k : nat) : R := if decide (j = k) then 1 else 0.

(** Coefficient in row [r], column [c] of a real matrix, 0 outside. *)
Definition entry (A : matrix R) (r c : nat) : R :=
  default 0 (coeffs A !! (c * rows A + r)%nat).

(** Row [r] of [A] times [p], and the quadratic form [p^T A p]. *)
Definition row_times (A : matrix R) (r : nat) (p : list R) : R :=
  sum_below (cols A) (fun c => entry A r c * coord p c).

Definition quadratic_form (A : matrix R) (p : list R) : R :=
  sum_below (rows A) (fun r => coord p r * row_times A r p).

Definition symmetric (A : matrix R) : Prop :=
  cols A = rows A
  /\ length (coeffs A) = (rows A * cols A)%nat
  /\ forall r c, (r < rows A)%nat -> (c < rows A)%nat ->
       entry A r c = entry A c r.

(** [l] is the derivative of [f] at [p] along coordinate [k]. *)
Definition partial_derivative (f : list R -> R) (p : list R) (k : nat)
    (l : R) : Prop :=
  derivable_pt_lim (fun t => f (<[k := t]> p)) (coord p k) l.

(** The oracle is exact for [f] at points of length [d]: every answer is
    the vector of the [d] partial derivatives of [f] at the point asked. *)
Definition exact_gradient (f : list R -> R) (d : nat)
    (gradient : nat -> list R -> R * list R) : Prop :=
  forall (n : nat) (p : list R),
    length p = d ->
    length (gradient n p).2 = d
    /\ forall k, (k < d)%nat ->
         partial_derivative f p k (coord (gradient n p).2 k).

(** The matrix of the scenario: [scenario_f p = p^T A p]. *)
Definition scenario_A : matrix R := Matrix 2 2 [1; 1 / 2; 1 / 2; 1].
End Quadratic.

(** *** Gradients of the length of the point *)

(** The four gradients the oracle returns in dimension [i] have the length
    of [x0]. *)
Definition well_sized {K : Type} `{Scalar K}
    (gradient : nat -> list K -> K * list K) (epsilon : K) (x0 : list K)
    (i : nat) : Prop :=
  forall j, j < 4 -> length (answer gradient epsilon x0 i j) = length x0.

(** *** Quadratic forms of matrices that need not be symmetric *)

Section QuadraticGeneral.
Local Open Scope R_scope.

(** [p] times column [c] of [A]. *)
Definition times_col (A : matrix R) (p : list R) (c : nat) : R :=
  sum_below (rows A) (fun r => coord p r * entry A r c).
End QuadraticGeneral.

End Hessian.

(** ** The loop that initialises [C] in [gaussian_dlm_log] *)

Module GaussianDlm.

(** [int] arithmetic: the result taken back into [-2^31, 2^31). *)
Definition wrap32 (z : Z) : Z := ((z + 2 ^ 31) mod 2 ^ 32 - 2 ^ 31)%Z.

(** Where control stands in lines 121 to 126: at the test of the outer
    loop, at the test of the inner loop, past the loops, or stopped by a
    failed assertion of the coefficient access. *)
Inductive point : Type :=
| Outer (i : Z)
| Inner (i j : Z)
| Exit
| Failed.

Inductive outcome (store : Type) : Type :=
| Finished (C : store)
| AssertionFailed
| OutOfFuel.
Arguments Finished {store} _.
Arguments AssertionFailed {store}.
Arguments OutOfFuel {store}.

Section MomentInit.
Context {K : Type} `{Scalar K} {store : Type}.

(** [C(i, j) = v]: what Eigen makes of it is left open; [None] is a failed
    range assertion. *)
Variable write : store -> Z -> Z -> K -> option store.

(** [y.rows()] and [y.cols()]. *)
Variables y_rows y_cols : Z.

(** One test of a loop condition with what follows it:
<<
      for (int i = 0; i < y.rows(); i ++)
        for (int j = 0; j < y.cols(); i ++)
          if (i == j) C(i, j) = 1.0; else C(i, j) = 0.0;
>>
    Both loops increment [i]. *)
Definition step (l : point) (C : store) : point * store :=
  match l with
  | Outer i =>
      if (i <? y_rows)%Z then (Inner i 0, C) else (Exit, C)
  | Inner i j =>
      if (j <? y_cols)%Z then
        match write C i j (if (i =? j)%Z then lit 1 else lit 0) with
        | Some C' => (Inner (wrap32 (i + 1)) j, C')
        | None => (Failed, C)
        end
      else (Outer (wrap32 (i + 1)), C)
  | Exit => (Exit, C)
  | Failed => (Failed, C)
  end.

(** The first [n] transitions. *)
Fixpoint steps (n : nat) (l : point) (C : store) : point * store :=
  match n with
  | O => (l, C)
  | Datatypes.S n' => let '(l', C') := step l C in steps n' l' C'
  end.

(** The loop nest run with a bound on the number of tests. *)
Fixpoint fill_C (fuel : nat) (l : point) (C : store) : outcome store :=
  match l with
  | Exit => Finished C
  | Failed => AssertionFailed
  | _ =>
      match fuel with
      | O => OutOfFuel
      | Datatypes.S n => let '(l', C') := step l C in fill_C n l' C'
      end
  end.
End MomentInit.

(** Two readings of [C(i, j) = v] for the [n] by [n] matrix [C]: with the
    range assertion, and without it, as the store at offset [i + j n]
    from the first coefficient. *)
Definition write_checked {K : Type} (C : matrix K) (i j : Z) (v : K)
  : option (matrix K) :=
  if decide (0 <= i < Z.of_nat (rows C) /\ 0 <= j < Z.of_nat (cols C))%Z
  then Some (Matrix (rows C) (cols C)
               (<[Z.to_nat (i + j * Z.of_nat (rows C)) := v]> (coeffs C)))
  else None.

Definition write_raw {K : Type} (n : Z) (C : Z -> K) (i j : Z) (v : K)
  : option (Z -> K) :=
  Some (fun a => if (a =? i + j * n)%Z then v else C a).

(** *** The whole of [gaussian_dlm_log] *)

(** What a check of the arguments does with [lp]: it returns true or
    false, either way with what it left in [lp], or it throws. *)
Inductive verdict (K : Type) : Type :=
| Pass (lp : K)
| Reject (lp : K)
| Throw.
Arguments Pass {K} _.
Arguments Reject {K} _.
Arguments Throw {K}.

(** How a call of [gaussian_dlm_log] ends: with a value, with an
    exception of a check, in a failed assertion of a coefficient access,
    or not within the bound on the number of loop tests. *)
Inductive ending (K : Type) : Type :=
| Returned (lp : K)
| Thrown
| Stopped
| Unfinished.
Arguments Returned {K} _.
Arguments Thrown {K}.
Arguments Stopped {K}.
Arguments Unfinished {K}.

Section WholeFunction.
Context {K : Type} `{Scalar K} {vstore store : Type}.

(** [m(i) = v] and [C(i, j) = v], as for the loop nest above. *)
Variable write_m : vstore -> Z -> K -> option vstore.
Variable write : store -> Z -> Z -> K -> option store.

(** The helpers and constants the function takes from other headers:
    the two checks, the two values of [include_summand] (for the constant
    and for the terms that depend on the arguments), and the constant. *)
Variable check_size_match : Z -> Z -> K -> verdict K.
Variable check_symmetric : matrix K -> K -> verdict K.
Variables include_constant include_terms : bool.
Variable NEG_LOG_SQRT_TWO_PI : K.

(** Lines 128 to 155, what follows the loop nest: the allocation of [a]
    and [R] and the prediction loop, from [m], [C] and [lp].  Nothing is
    assumed of it. *)
Variable predict : vstore -> store -> K -> ending K.

(** The sizes of the arguments, and the two matrices that are checked. *)
Variables y_rows y_cols F_rows F_cols G_rows G_cols : Z.
Variables V W : matrix K.

(** [if (!check(..., &lp)) return lp;] followed by [k]. *)
Definition guard (v : verdict K) (k : K -> ending K) : ending K :=
  match v with
  | Pass lp => k lp
  | Reject lp => Returned lp
  | Throw => Thrown
  end.

(** Lines 116 and 117:
<<
      for (int i = 0; i < y.size(); i ++)
        m(i) = 0.0;
>>
    from the test of [i]. *)
Fixpoint zero_m (fuel : nat) (i : Z) (m : vstore) : outcome vstore :=
  if (i <? y_rows * y_cols)%Z then
    match fuel with
    | O => OutOfFuel
    | Datatypes.S n =>
        match write_m m i (lit 0) with
        | Some m' => zero_m n (wrap32 (i + 1)) m'
        | None => AssertionFailed
        end
    end
  else Finished m.

(** Lines 111 to 155, the terms that depend on the arguments; [m0] and
    [C0] are [m] and [C] as allocated. *)
Definition terms (fuel : nat) (m0 : vstore) (C0 : store) (lp : K)
  : ending K :=
  match zero_m fuel 0 m0 with
  | Finished m =>
      match fill_C write y_rows y_cols fuel (Outer 0) C0 with
      | Finished C => predict m C lp
      | AssertionFailed => Stopped
      | OutOfFuel => Unfinished
      end
  | AssertionFailed => Stopped
  | OutOfFuel => Unfinished
  end.

(** Lines 104 to 156, after the checks. *)
Definition density (fuel : nat) (m0 : vstore) (C0 : store) (lp : K)
  : ending K :=
  if ((y_cols =? 0) || (y_rows =? 0))%Z then Returned lp
  else
    let r := wrap32 y_rows in
    let T := wrap32 y_cols in
    let lp :=
      if include_constant
      then sadd lp (smul (smul NEG_LOG_SQRT_TWO_PI (lit r)) (lit T))
      else lp in
    if include_terms then terms fuel m0 C0 lp else Returned lp.

Definition gaussian_dlm_log (fuel : nat) (m0 : vstore) (C0 : store)
  : ending K :=
  let lp := lit 0 in
  guard (check_size_match F_rows y_rows lp) (fun lp =>
  guard (check_size_match F_cols G_rows lp) (fun lp =>
  guard (check_size_match G_rows G_cols lp) (fun lp =>
  guard (check_symmetric V lp) (fun lp =>
  guard (check_symmetric W lp) (fun lp =>
  density fuel m0 C0 lp))))).

(** The checks alone: what they leave in [lp] when all pass. *)
Definition checks : verdict K :=
  let lp := lit 0 in
  match check_size_match F_rows y_rows lp with
  | Pass lp =>
      match check_size_match F_cols G_rows lp with
      | Pass lp =>
          match check_size_match G_rows G_cols lp with
          | Pass lp =>
              match check_symmetric V lp with
              | Pass lp => check_symmetric W lp
              | v => v
              end
          | v => v
          end
      | v => v
      end
  | v => v
  end.
End WholeFunction.

(** [m(i) = v] on a vector with the range assertion. *)
Definition write_m_checked {K : Type} (m : list K) (i : Z) (v : K)
  : option (list K) :=
  if decide (0 <= i < Z.of_nat (length m))%Z
  then Some (<[Z.to_nat i := v]> m) else None.

End GaussianDlm.

(** * Facts *)

Import Hessian GaussianDlm.

(** ** Columns of a column-major matrix *)

Section DenseFacts.
Context {K : Type}.
Implicit Types (m : matrix K) (g : list K).

Lemma lookup_col m j r :
  r < rows m -> col j m !! r = coeffs m !! (j * rows m + r).
Proof.
  intros Hr. unfold col.
  rewrite lookup_take_lt by done. apply lookup_drop.
Qed.

Lemma resize_rows junk r c m : rows (resize junk r c m) = r.
Proof. unfold resize. by case_decide. Qed.

Lemma resize_cols junk r c m : cols (resize junk r c m) = c.
Proof. unfold resize. by case_decide. Qed.

Lemma resize_length junk r c m : length (coeffs (resize junk r c m)) = r * c.
Proof.
  unfold resize. case_decide; simpl; [done|].
  by rewrite length_fmap, length_seq.
Qed.

Lemma assign_col_Some i g m :
  i < cols m -> length g = rows m ->
  assign_col i g m =
    Some (Matrix (rows m) (cols m)
            (take (i * rows m) (coeffs m) ++ g
               ++ drop ((i + 1) * rows m) (coeffs m))).
Proof. intros. unfold assign_col. by rewrite decide_True. Qed.

Lemma col_assigned i g m :
  length (coeffs m) = rows m * cols m -> i < cols m -> length g = rows m ->
  take (rows m)
    (drop (i * rows m)
       (take (i * rows m) (coeffs m) ++ g
          ++ drop ((i + 1) * rows m) (coeffs m))) = g.
Proof.
  intros Hlen Hi Hg.
  rewrite drop_app_length' by (rewrite length_take; nia).
  by rewrite take_app_length'.
Qed.

Lemma col_kept i j g m :
  length (coeffs m) = rows m * cols m -> i < cols m -> length g = rows m ->
  j < i ->
  take (rows m)
    (drop (j * rows m)
       (take (i * rows m) (coeffs m) ++ g
          ++ drop ((i + 1) * rows m) (coeffs m))) = col j m.
Proof.
  intros Hlen Hi Hg Hj. unfold col.
  apply list_eq. intros r.
  destruct (decide (r < rows m)) as [Hr|Hr].
  - rewrite !lookup_take_lt, !lookup_drop by done.
    rewrite lookup_app_l by (rewrite length_take; nia).
    apply lookup_take_lt. nia.
  - by rewrite !lookup_take_ge by lia.
Qed.

(** Two matrices of one shape with the same columns are the same. *)
Lemma matrix_ext m1 m2 :
  rows m1 = rows m2 -> cols m1 = cols m2 ->
  length (coeffs m1) = rows m1 * cols m1 ->
  length (coeffs m2) = rows m2 * cols m2 ->
  (forall j, j < cols m1 -> col j m1 = col j m2) ->
  m1 = m2.
Proof.
  destruct m1 as [r1 c1 l1], m2 as [r2 c2 l2]. simpl.
  intros -> -> H1 H2 Hcol. f_equal.
  apply list_eq. intros k.
  destruct (decide (k < r2 * c2)) as [Hk|Hk].
  - assert (0 < r2) as Hr by nia.
    pose proof (Nat.div_mod_eq k r2) as Hdm.
    pose proof (Nat.mod_upper_bound k r2 ltac:(lia)) as Hm.
    assert (k `div` r2 < c2) as Hq.
    { apply Nat.Div0.div_lt_upper_bound. lia. }
    specialize (Hcol _ Hq).
    apply (f_equal (fun l => l !! (k `mod` r2))) in Hcol.
    rewrite !lookup_col in Hcol by done. simpl in Hcol.
    replace (k `div` r2 * r2 + k `mod` r2) with k in Hcol by lia.
    done.
  - rewrite !lookup_ge_None_2 by lia. done.
Qed.
End DenseFacts.

(** ** Running programs *)

Section RoutineFacts.
Context {K : Type} `{Scalar K}.
Variable gradient : nat -> list K -> K * list K.
Variable f : list K -> K.

Lemma run_bind {A B} (m : prog K A) (h : A -> prog K B) log :
  run gradient f (bind m h) log =
    match run gradient f m log with
    | (Some a, log') => run gradient f (h a) log'
    | (None, log') => (None, log')
    end.
Proof.
  revert log. induction m as [a| |p k IH|p k IH]; intros log; simpl; auto.
Qed.

Lemma calls_app (l1 l2 : list (@event K)) :
  calls (l1 ++ l2) = calls l1 + calls l2.
Proof. unfold calls. by rewrite filter_app, length_app. Qed.

Lemma calls_gradients (ps : list (list K)) :
  calls (GradientAt <$> ps) = length ps.
Proof.
  unfold calls. induction ps as [|p ps IH]; [done|].
  rewrite fmap_cons, filter_cons_True by done. simpl. by rewrite IH.
Qed.

Lemma run_for_loop_snoc {St} (body : nat -> St -> prog K St) n lo s log :
  run gradient f (for_loop body lo (n + 1) s) log =
    match run gradient f (for_loop body lo n s) log with
    | (Some s', log') => run gradient f (body (lo + n) s') log'
    | (None, log') => (None, log')
    end.
Proof.
  revert lo s log. induction n as [|n IH]; intros lo s log.
  - simpl. unfold mbind, prog_bind. rewrite run_bind, Nat.add_0_r.
    destruct (run gradient f (body lo s) log) as [[s'|] log']; done.
  - change (Datatypes.S n + 1) with (Datatypes.S (n + 1)).
    simpl. unfold mbind, prog_bind. rewrite !run_bind.
    destruct (run gradient f (body lo s) log) as [[s'|] log']; [|done].
    rewrite IH. by replace (lo + 1 + n) with (lo + Datatypes.S n) by lia.
Qed.

(** *** One dimension *)

Lemma put_Some (v : list K) i a :
  i < length v -> put v i a = Some (<[i := a]> v).
Proof. intros. unfold put. by rewrite decide_True. Qed.

Lemma vadd_Some (a b : list K) :
  length a = length b -> vadd a b = Some (zip_with sadd a b).
Proof. intros. unfold vadd. by rewrite decide_True. Qed.

Lemma vsub_Some (a b : list K) :
  length a = length b -> vsub a b = Some (zip_with ssub a b).
Proof. intros. unfold vsub. by rewrite decide_True. Qed.

Lemma probes_Some epsilon (x0 : list K) i xi :
  x0 !! i = Some xi ->
  probes epsilon x0 i = (fun a => <[i := a]> x0) <$> offsets epsilon xi.
Proof. intros Hxi. unfold probes. by rewrite Hxi. Qed.

Lemma length_probes epsilon (x0 : list K) i :
  i < length x0 -> length (probes epsilon x0 i) = 4.
Proof.
  intros Hi. destruct (lookup_lt_is_Some_2 _ _ Hi) as [xi Hxi].
  by rewrite (probes_Some _ _ _ _ Hxi).
Qed.

Lemma run_check {A B} (o : option A) (a : A) (h : A -> prog K B) log :
  o = Some a ->
  run gradient f (bind (check o) h) log = run gradient f (h a) log.
Proof. by intros ->. Qed.

Lemma run_store {B} i a s (h : frame K -> prog K B) log :
  i < length (x_temp s) ->
  run gradient f (bind (store_x_temp i a s) h) log =
    run gradient f (h (set_x_temp (<[i := a]> (x_temp s)) s)) log.
Proof.
  intros Hi. unfold store_x_temp, mbind, prog_bind.
  by rewrite put_Some.
Qed.

Lemma run_call_gradient {B} s (h : frame K -> prog K B) log :
  run gradient f (bind (call_gradient s) h) log =
    run gradient f
      (h (set_gradient (gradient (calls log) (x_temp s)) s))
      (log ++ [GradientAt (x_temp s)]).
Proof. done. Qed.

Lemma calls_snoc_gradient (log : list (@event K)) p :
  calls (log ++ [GradientAt p]) = calls log + 1.
Proof. by rewrite calls_app. Qed.

Ltac frame_simpl :=
  cbn [x fx hess_fx x_temp g_auto dummy_fx_eval
       set_x_temp set_hess_fx set_fx set_gradient fst snd].

Lemma run_body epsilon i s log :
  sized gradient (length (x s)) ->
  x_temp s = x s ->
  i < length (x s) ->
  rows (hess_fx s) = length (x s) ->
  cols (hess_fx s) = length (x s) ->
  calls log = 4 * i ->
  exists v g,
    run gradient f (body epsilon (length (x s)) i s) log =
      (Some (Frame (x s) (fx s)
               (Matrix (length (x s)) (length (x s))
                  (take (i * length (x s)) (coeffs (hess_fx s))
                     ++ column gradient epsilon (x s) i
                     ++ drop ((i + 1) * length (x s)) (coeffs (hess_fx s))))
               (x s) g v),
       log ++ (GradientAt <$> probes epsilon (x s) i)).
Proof.
  destruct s as [x0 fx0 H0 xt g0 v0]. frame_simpl.
  intros Hsz -> Hi Hr Hc Hlog.
  destruct (lookup_lt_is_Some_2 _ _ Hi) as [xi Hxi].
  unfold column, answer. rewrite (probes_Some _ _ _ _ Hxi).
  cbn [offsets fmap list_fmap lookup list_lookup].
  rewrite Nat.add_0_r.
  set (p1 := <[i := sadd xi (smul (lit 2) epsilon)]> x0).
  set (p2 := <[i := sadd xi (smul (lit (-2)) epsilon)]> x0).
  set (p3 := <[i := sadd xi epsilon]> x0).
  set (p4 := <[i := ssub xi epsilon]> x0).
  assert (length p1 = length x0) as Hp1 by apply length_insert.
  assert (length p2 = length x0) as Hp2 by apply length_insert.
  assert (length p3 = length x0) as Hp3 by apply length_insert.
  assert (length p4 = length x0) as Hp4 by apply length_insert.
  pose proof (Hsz (4 * i) p1 Hp1) as Hg1.
  pose proof (Hsz (4 * i + 1) p2 Hp2) as Hg2.
  pose proof (Hsz (4 * i + 2) p3 Hp3) as Hg3.
  pose proof (Hsz (4 * i + 3) p4 Hp4) as Hg4.
  unfold body, mbind, prog_bind, get. frame_simpl.
  (* first probe *)
  rewrite (run_check _ _ _ _ Hxi).
  rewrite run_store by done. frame_simpl. fold p1.
  rewrite run_call_gradient. frame_simpl. rewrite Hlog.
  (* second probe *)
  rewrite (run_check _ _ _ _ Hxi).
  rewrite run_store by (frame_simpl; lia). frame_simpl.
  replace (<[i := sadd xi (smul (lit (-2)) epsilon)]> p1) with p2
    by (unfold p1, p2; by rewrite list_insert_insert_eq).
  rewrite run_call_gradient. frame_simpl.
  rewrite calls_snoc_gradient, Hlog.
  erewrite run_check; cycle 1.
  { apply vadd_Some. unfold vneg. rewrite length_fmap. lia. }
  (* third probe *)
  rewrite (run_check _ _ _ _ Hxi).
  rewrite run_store by (frame_simpl; lia). frame_simpl.
  replace (<[i := sadd xi epsilon]> p2) with p3
    by (unfold p2, p3; by rewrite list_insert_insert_eq).
  rewrite run_call_gradient. frame_simpl.
  rewrite !calls_snoc_gradient, Hlog.
  rewrite <- ?Nat.add_assoc. cbn [Nat.add].
  erewrite run_check; cycle 1.
  { apply vadd_Some. unfold vneg, vscale.
    rewrite length_zip_with, !length_fmap. lia. }
  (* fourth probe *)
  rewrite (run_check _ _ _ _ Hxi).
  rewrite run_store by (frame_simpl; lia). frame_simpl.
  replace (<[i := ssub xi epsilon]> p3) with p4
    by (unfold p3, p4; by rewrite list_insert_insert_eq).
  rewrite run_call_gradient. frame_simpl.
  rewrite !calls_snoc_gradient, Hlog.
  rewrite <- ?Nat.add_assoc. cbn [Nat.add].
  erewrite run_check; cycle 1.
  { apply vsub_Some. unfold vneg, vscale.
    rewrite !length_zip_with, !length_fmap. lia. }
  (* restore and store the column *)
  rewrite (run_check _ _ _ _ Hxi).
  rewrite run_store by (frame_simpl; lia). frame_simpl.
  replace (<[i := xi]> p4) with x0
    by (unfold p4; rewrite list_insert_insert_eq; by rewrite list_insert_id).
  erewrite run_check; cycle 1.
  { apply assign_col_Some; [lia|].
    unfold vquot, vneg, vscale.
    rewrite length_fmap, !length_zip_with, !length_fmap. lia. }
  cbn [run]. frame_simpl. rewrite Hr, Hc.
  rewrite <- !(assoc_L (++)). cbn [app].
  eexists _, _. reflexivity.
Qed.

(** *** The loop over the dimensions *)

Lemma probe_log_snoc epsilon (x0 : list K) n :
  probe_log epsilon x0 (n + 1) =
    probe_log epsilon x0 n ++ (GradientAt <$> probes epsilon x0 n).
Proof.
  unfold probe_log. rewrite seq_app, bind_app. simpl.
  by rewrite (right_id_L [] (++)).
Qed.

Lemma calls_probe_log epsilon (x0 : list K) n :
  n <= length x0 -> calls (probe_log epsilon x0 n) = 4 * n.
Proof.
  induction n as [|n IH]; intros Hn; [done|].
  replace (Datatypes.S n) with (n + 1) by lia.
  rewrite probe_log_snoc, calls_app, calls_gradients, length_probes by lia.
  rewrite IH by lia. lia.
Qed.

Lemma length_answer epsilon (x0 : list K) i j :
  sized gradient (length x0) -> i < length x0 -> j < 4 ->
  length (answer gradient epsilon x0 i j) = length x0.
Proof.
  intros Hsz Hi Hj. unfold answer.
  destruct (lookup_lt_is_Some_2 _ _ Hi) as [xi Hxi].
  rewrite (probes_Some _ _ _ _ Hxi).
  destruct j as [|[|[|[|j]]]]; try lia; simpl;
    apply Hsz, length_insert.
Qed.

Lemma length_combine epsilon (g1 g2 g3 g4 : list K) d :
  length g1 = d -> length g2 = d -> length g3 = d -> length g4 = d ->
  length (combine epsilon g1 g2 g3 g4) = d.
Proof.
  intros. unfold combine, vquot, vneg, vscale.
  rewrite length_fmap, !length_zip_with, !length_fmap. lia.
Qed.

Lemma length_column epsilon (x0 : list K) i :
  sized gradient (length x0) -> i < length x0 ->
  length (column gradient epsilon x0 i) = length x0.
Proof.
  intros Hsz Hi. unfold column.
  apply length_combine; apply length_answer; auto.
Qed.

(** The state after the first [n] dimensions. *)
Lemma run_columns epsilon junk (x0 : list K) fx0 hess0 n :
  sized gradient (length x0) ->
  n <= length x0 ->
  exists s,
    run gradient f (columns epsilon n (enter junk x0 fx0 hess0)) [] =
      (Some s, probe_log epsilon x0 n)
    /\ x s = x0 /\ fx s = fx0 /\ x_temp s = x0
    /\ rows (hess_fx s) = length x0
    /\ cols (hess_fx s) = length x0
    /\ length (coeffs (hess_fx s)) = length x0 * length x0
    /\ forall j, j < n -> col j (hess_fx s) = column gradient epsilon x0 j.
Proof.
  intros Hsz. unfold columns. cbn [enter x].
  induction n as [|n IH]; intros Hn.
  - eexists. split; [reflexivity|]. cbn.
    rewrite resize_rows, resize_cols, resize_length.
    repeat split; auto. intros j Hj. lia.
  - destruct IH as (s & Hrun & Hx & Hfx & Hxt & Hr & Hc & Hlen & Hcols);
      [lia|].
    replace (Datatypes.S n) with (n + 1) by lia.
    rewrite run_for_loop_snoc, Hrun. cbn [Nat.add].
    destruct (run_body epsilon n s (probe_log epsilon x0 n))
      as (v & g & Hbody); rewrite ?Hx; auto; try lia.
    { apply calls_probe_log. lia. }
    rewrite Hx in Hbody. rewrite Hbody, <- probe_log_snoc.
    eexists. split; [reflexivity|]. cbn.
    assert (length (column gradient epsilon x0 n) = rows (hess_fx s))
      as Hcl by (rewrite Hr; apply length_column; [done|lia]).
    repeat split; auto.
    + rewrite !length_app, length_take, length_drop, Hlen, Hcl, Hr. nia.
    + intros j Hj. rewrite <- Hr.
      destruct (decide (j = n)) as [->|Hne].
      * apply col_assigned; lia.
      * rewrite col_kept by lia. apply Hcols. lia.
Qed.

(** *** The whole routine *)

Lemma run_finite_diff_hessian_AD junk (x0 : list K) fx0 hess0 epsilon :
  sized gradient (length x0) ->
  exists s,
    run gradient f (finite_diff_hessian_AD junk x0 fx0 hess0 epsilon) [] =
      (Some s, full_log epsilon x0)
    /\ x s = x0 /\ fx s = f x0 /\ x_temp s = x0
    /\ rows (hess_fx s) = length x0
    /\ cols (hess_fx s) = length x0
    /\ length (coeffs (hess_fx s)) = length x0 * length x0
    /\ forall j, j < length x0 ->
         col j (hess_fx s) = column gradient epsilon x0 j.
Proof.
  intros Hsz.
  destruct (run_columns epsilon junk x0 fx0 hess0 (length x0))
    as (s & Hrun & Hx & Hfx & Hxt & Hr & Hc & Hlen & Hcols); [done..|].
  unfold finite_diff_hessian_AD, mbind, prog_bind.
  rewrite run_bind, Hrun. cbn [bind run]. rewrite Hx.
  eexists. split; [reflexivity|]. cbn. auto 10.
Qed.

Lemma lookup_combine epsilon (g1 g2 g3 g4 : list K) k a1 a2 a3 a4 :
  g1 !! k = Some a1 -> g2 !! k = Some a2 ->
  g3 !! k = Some a3 -> g4 !! k = Some a4 ->
  combine epsilon g1 g2 g3 g4 !! k = Some (stencil epsilon a1 a2 a3 a4).
Proof.
  intros H1 H2 H3 H4. unfold combine, vquot, vneg, vscale, stencil.
  rewrite list_lookup_fmap, !lookup_zip_with, !list_lookup_fmap.
  by rewrite H1, H2, H3, H4.
Qed.
End RoutineFacts.

(** ** Properties of [finite_diff_hessian_AD] *)

Lemma scenario_gradient_sized {K : Type} `{Scalar K} :
  sized (scenario_gradient (K := K)) 2.
Proof. intros n [|a [|b [|c p]]] Hp; simplify_eq/=; done. Qed.

Section Properties.
Context {K : Type} `{Scalar K}.
Variable gradient : nat -> list K -> K * list K.
Variable f : list K -> K.

(** C1. For an oracle that answers with gradients of the length of the
    point, and every dimension [i] of [x0] with coordinate [xi]: the run
    returns, column [i] of the returned matrix has the length of [x0], and
    its coefficient [k] is [(-a1 + a2 + 8 a3 - 8 a4) / (12 epsilon)], where
    [a1], [a2], [a3], [a4] are the coefficients [k] of the gradients the
    oracle returned at [x0] with coordinate [i] set to [xi + 2 epsilon],
    [xi + -2 epsilon], [xi + epsilon] and [xi - epsilon], each computed
    from the original [xi].  These are the oracle's calls number [4 i] to
    [4 i + 3]. *)
Theorem hessian_column_is_stencil junk (x0 : list K) fx0 hess0 epsilon i xi :
  sized gradient (length x0) ->
  x0 !! i = Some xi ->
  let g1 := (gradient (4 * i)
               (<[i := sadd xi (smul (lit 2) epsilon)]> x0)).2 in
  let g2 := (gradient (4 * i + 1)
               (<[i := sadd xi (smul (lit (-2)) epsilon)]> x0)).2 in
  let g3 := (gradient (4 * i + 2) (<[i := sadd xi epsilon]> x0)).2 in
  let g4 := (gradient (4 * i + 3) (<[i := ssub xi epsilon]> x0)).2 in
  exists s,
    (run gradient f (finite_diff_hessian_AD junk x0 fx0 hess0 epsilon) []).1
      = Some s
    /\ length (col i (hess_fx s)) = length x0
    /\ forall k a1 a2 a3 a4,
         g1 !! k = Some a1 -> g2 !! k = Some a2 ->
         g3 !! k = Some a3 -> g4 !! k = Some a4 ->
         col i (hess_fx s) !! k = Some (stencil epsilon a1 a2 a3 a4)
         /\ coeff (hess_fx s) k i = Some (stencil epsilon a1 a2 a3 a4).
Proof.
  intros Hsz Hxi g1 g2 g3 g4.
  pose proof (lookup_lt_Some _ _ _ Hxi) as Hi.
  destruct (run_finite_diff_hessian_AD gradient f junk x0 fx0 hess0 epsilon
              Hsz)
    as (s & Hrun & _ & _ & _ & Hr & Hc & Hlen & Hcols).
  exists s. rewrite Hrun. split; [done|].
  specialize (Hcols i Hi).
  assert (column gradient epsilon x0 i = combine epsilon g1 g2 g3 g4) as Hcol.
  { unfold column, answer. rewrite (probes_Some _ _ _ _ Hxi).
    cbn [offsets fmap list_fmap lookup list_lookup].
    by rewrite Nat.add_0_r. }
  split.
  - rewrite Hcols. by apply length_column.
  - intros k a1 a2 a3 a4 H1 H2 H3 H4.
    assert (col i (hess_fx s) !! k = Some (stencil epsilon a1 a2 a3 a4))
      as Hk by (rewrite Hcols, Hcol; by apply lookup_combine).
    split; [done|].
    assert (k < length x0) as Hklt.
    { apply lookup_lt_Some in H1. unfold g1 in H1.
      rewrite Hsz in H1 by apply length_insert. done. }
    unfold coeff. rewrite decide_True by lia.
    rewrite <- lookup_col by lia. done.
Qed.

(** C3. The calls made during dimension [i] are the four calls that the
    run of the first [i + 1] dimensions adds to the run of the first [i]:
    they are made at [x0] with coordinate [i] set to [xi + 2 epsilon],
    [xi + -2 epsilon], [xi + epsilon], [xi - epsilon], so each of the four
    points has the length of [x0] and agrees with [x0] at every other
    coordinate; and the working point [x_temp] equals [x0] both when
    dimension [i] begins and when it has finished. *)
Theorem perturbations_are_isolated junk (x0 : list K) fx0 hess0 epsilon i xi :
  sized gradient (length x0) ->
  x0 !! i = Some xi ->
  let p1 := <[i := sadd xi (smul (lit 2) epsilon)]> x0 in
  let p2 := <[i := sadd xi (smul (lit (-2)) epsilon)]> x0 in
  let p3 := <[i := sadd xi epsilon]> x0 in
  let p4 := <[i := ssub xi epsilon]> x0 in
  exists s s' log,
    run gradient f (columns epsilon i (enter junk x0 fx0 hess0)) []
      = (Some s, log)
    /\ run gradient f (columns epsilon (i + 1) (enter junk x0 fx0 hess0)) []
      = (Some s',
         log ++ [GradientAt p1; GradientAt p2; GradientAt p3; GradientAt p4])
    /\ x_temp s = x0 /\ x_temp s' = x0
    /\ forall p, p ∈ [p1; p2; p3; p4] ->
         length p = length x0
         /\ forall k, k <> i -> p !! k = x0 !! k.
Proof.
  intros Hsz Hxi p1 p2 p3 p4.
  pose proof (lookup_lt_Some _ _ _ Hxi) as Hi.
  destruct (run_columns gradient f epsilon junk x0 fx0 hess0 i)
    as (s & Hrun & _ & _ & Hxt & _); [done|lia|].
  destruct (run_columns gradient f epsilon junk x0 fx0 hess0 (i + 1))
    as (s' & Hrun' & _ & _ & Hxt' & _); [done|lia|].
  exists s, s', (probe_log epsilon x0 i).
  rewrite Hrun, Hrun', probe_log_snoc, (probes_Some _ _ _ _ Hxi).
  split; [done|]. split; [done|]. split; [done|]. split; [done|].
  intros p Hp.
  assert (exists a, p = <[i := a]> x0) as [a ->].
  { apply list_elem_of_In in Hp. simpl in Hp.
    destruct Hp as [<- | [<- | [<- | [<- | []]]]]; eauto. }
  split; [apply length_insert|].
  intros k Hk. by apply list_lookup_insert_ne.
Qed.

Lemma plain_calls_gradients (ps : list (list K)) :
  filter (fun e => is_gradient_call e = false) (GradientAt <$> ps) = [].
Proof.
  induction ps as [|p ps IH]; [done|].
  rewrite fmap_cons, filter_cons_False by done. exact IH.
Qed.

Lemma plain_calls_probe_log epsilon (x0 : list K) n :
  filter (fun e => is_gradient_call e = false) (probe_log epsilon x0 n) = [].
Proof.
  induction n as [|n IH]; [done|].
  replace (Datatypes.S n) with (n + 1) by lia.
  by rewrite probe_log_snoc, filter_app, IH, plain_calls_gradients.
Qed.

(** C4. The returned [fx] is [f x0], whatever the oracle answered, and
    the run calls [f] directly once, at the unperturbed [x0]. *)
Theorem fx_is_plain_call junk (x0 : list K) fx0 hess0 epsilon :
  sized gradient (length x0) ->
  exists s log,
    run gradient f (finite_diff_hessian_AD junk x0 fx0 hess0 epsilon) []
      = (Some s, log)
    /\ fx s = f x0
    /\ filter (fun e => is_gradient_call e = false) log = [ApplyAt x0].
Proof.
  intros Hsz.
  destruct (run_finite_diff_hessian_AD gradient f junk x0 fx0 hess0 epsilon
              Hsz)
    as (s & Hrun & _ & Hfx & _).
  exists s, (full_log epsilon x0). repeat split; auto.
  unfold full_log. by rewrite filter_app, plain_calls_probe_log.
Qed.

(** C5. Whatever matrix [hess0] is passed in and whatever fresh storage
    holds, the returned matrix has [length x0] rows, [length x0] columns
    and that many squared coefficients; for the empty point the run
    returns the empty 0 by 0 matrix and [fx = f []], having called nothing
    but [f]. *)
Theorem hessian_shape junk (x0 : list K) fx0 hess0 epsilon :
  (sized gradient (length x0) ->
   exists s,
     (run gradient f (finite_diff_hessian_AD junk x0 fx0 hess0 epsilon) []).1
       = Some s
     /\ rows (hess_fx s) = length x0
     /\ cols (hess_fx s) = length x0
     /\ length (coeffs (hess_fx s)) = length x0 * length x0)
  /\ exists s0,
       run gradient f (finite_diff_hessian_AD junk [] fx0 hess0 epsilon) []
         = (Some s0, [ApplyAt []])
       /\ hess_fx s0 = Matrix 0 0 []
       /\ fx s0 = f [].
Proof.
  split.
  - intros Hsz.
    destruct (run_finite_diff_hessian_AD gradient f junk x0 fx0 hess0 epsilon
              Hsz)
      as (s & Hrun & _ & _ & _ & Hr & Hc & Hlen & _).
    exists s. by rewrite Hrun.
  - eexists. split; [reflexivity|]. cbn. split; [|done].
    unfold resize. case_decide as Hlen; [|done].
    by rewrite (nil_length_inv _ Hlen).
Qed.

(** C6. The caller's [x] is the same after the call as before it, and
    the same after every number of dimensions in between: the
    perturbations go to [x_temp]. *)
Theorem input_point_unchanged junk (x0 : list K) fx0 hess0 epsilon :
  sized gradient (length x0) ->
  (exists s,
     (run gradient f (finite_diff_hessian_AD junk x0 fx0 hess0 epsilon) []).1
       = Some s
     /\ x s = x0)
  /\ forall n, n <= length x0 ->
       exists s,
         (run gradient f (columns epsilon n (enter junk x0 fx0 hess0)) []).1
           = Some s
         /\ x s = x0.
Proof.
  intros Hsz. split.
  - destruct (run_finite_diff_hessian_AD gradient f junk x0 fx0 hess0 epsilon
              Hsz)
      as (s & Hrun & Hx & _).
    exists s. by rewrite Hrun.
  - intros n Hn.
    destruct (run_columns gradient f epsilon junk x0 fx0 hess0 n Hsz Hn)
      as (s & Hrun & Hx & _).
    exists s. by rewrite Hrun.
Qed.

(** C8. The calls of one run are, in this order: for each dimension
    [i = 0, ..., d - 1] in turn the four gradient calls of that dimension,
    then the one plain call of [f]; so the oracle is called [4 d] times and
    [f] once, and for the empty point the only call is the one of [f]. *)
Theorem oracle_call_count junk (x0 : list K) fx0 hess0 epsilon :
  (sized gradient (length x0) ->
   exists s log,
     run gradient f (finite_diff_hessian_AD junk x0 fx0 hess0 epsilon) []
       = (Some s, log)
     /\ log = (i ← seq 0 (length x0); GradientAt <$> probes epsilon x0 i)
                ++ [ApplyAt x0]
     /\ (forall i, i < length x0 -> length (probes epsilon x0 i) = 4)
     /\ calls log = 4 * length x0
     /\ length (filter (fun e => is_gradient_call e = false) log) = 1)
  /\ (run gradient f (finite_diff_hessian_AD junk [] fx0 hess0 epsilon) []).2
       = [ApplyAt []].
Proof.
  split; [|done].
  intros Hsz.
  destruct (run_finite_diff_hessian_AD gradient f junk x0 fx0 hess0 epsilon
              Hsz)
    as (s & Hrun & _).
  exists s, (full_log epsilon x0). split; [done|]. split; [done|].
  split; [intros i Hi; by apply length_probes|].
  unfold full_log. split.
  - rewrite calls_app, calls_probe_log by done.
    change (calls [ApplyAt x0]) with 0. lia.
  - by rewrite filter_app, plain_calls_probe_log.
Qed.
End Properties.

Lemma column_ext {K : Type} `{Scalar K}
    (gradient1 gradient2 : nat -> list K -> K * list K) epsilon x0 i :
  (forall n p, (gradient1 n p).2 = (gradient2 n p).2) ->
  column gradient1 epsilon x0 i = column gradient2 epsilon x0 i.
Proof.
  intros Heq. unfold column, answer.
  repeat match goal with
         | |- context [probes epsilon x0 i !! ?j] =>
             destruct (probes epsilon x0 i !! j)
         end; by rewrite ?Heq.
Qed.

(** C10. Two oracles that return the same gradient at every call, and
    any values whatever, lead to the same calls, the same [fx] and the
    same matrix. *)
Theorem value_component_is_discarded {K : Type} `{Scalar K}
    (gradient1 gradient2 : nat -> list K -> K * list K) (f : list K -> K)
    junk (x0 : list K) fx0 hess0 epsilon :
  sized gradient1 (length x0) ->
  (forall n p, (gradient1 n p).2 = (gradient2 n p).2) ->
  exists s1 s2 log,
    run gradient1 f (finite_diff_hessian_AD junk x0 fx0 hess0 epsilon) []
      = (Some s1, log)
    /\ run gradient2 f (finite_diff_hessian_AD junk x0 fx0 hess0 epsilon) []
      = (Some s2, log)
    /\ fx s1 = fx s2
    /\ hess_fx s1 = hess_fx s2.
Proof.
  intros Hsz1 Heq.
  assert (sized gradient2 (length x0)) as Hsz2.
  { intros n p Hp. rewrite <- Heq. by apply Hsz1. }
  destruct (run_finite_diff_hessian_AD gradient1 f junk x0 fx0 hess0 epsilon
              Hsz1)
    as (s1 & Hrun1 & _ & Hfx1 & _ & Hr1 & Hc1 & Hlen1 & Hcols1).
  destruct (run_finite_diff_hessian_AD gradient2 f junk x0 fx0 hess0 epsilon
              Hsz2)
    as (s2 & Hrun2 & _ & Hfx2 & _ & Hr2 & Hc2 & Hlen2 & Hcols2).
  exists s1, s2, (full_log epsilon x0).
  split; [done|]. split; [done|]. split; [congruence|].
  apply matrix_ext; try congruence.
  intros j Hj. rewrite Hc1 in Hj.
  rewrite Hcols1, Hcols2 by done. by apply column_ext.
Qed.

(** C7. The step size is never tested: for every [epsilon] of every
    scalar type the run returns, with the usual calls, [fx] and shape.  In
    binary64, on the scenario, the steps [0], [nan] and [infinity] return
    a matrix of [nan], and the negative step [-0.5] returns the Hessian. *)
Theorem step_size_is_not_validated :
  (forall (K : Type) (ops : Scalar K) (gradient : nat -> list K -> K * list K)
          (f : list K -> K) junk (x0 : list K) fx0 hess0 (epsilon : K),
     sized gradient (length x0) ->
     exists s,
       run gradient f (finite_diff_hessian_AD junk x0 fx0 hess0 epsilon) []
         = (Some s, full_log epsilon x0)
       /\ fx s = f x0
       /\ rows (hess_fx s) = length x0
       /\ cols (hess_fx s) = length x0)
  /\ let hessian (epsilon : float) :=
       hess_fx <$>
         (run scenario_gradient scenario_f
            (finite_diff_hessian_AD (fun _ => 0%float) [1%float; 2%float]
               0%float (Matrix 0 0 []) epsilon) []).1 in
     hessian 0%float = Some (Matrix 2 2 [nan; nan; nan; nan])
     /\ hessian nan = Some (Matrix 2 2 [nan; nan; nan; nan])
     /\ hessian infinity = Some (Matrix 2 2 [nan; nan; nan; nan])
     /\ hessian (-0.5)%float
          = Some (Matrix 2 2 [2%float; 1%float; 1%float; 2%float]).
Proof.
  split.
  - intros K ops gradient f junk x0 fx0 hess0 epsilon Hsz.
    destruct (run_finite_diff_hessian_AD gradient f junk x0 fx0 hess0 epsilon
              Hsz)
      as (s & Hrun & _ & Hfx & _ & Hr & Hc & _).
    by exists s.
  - repeat split; vm_compute; reflexivity.
Qed.

(** *** The scenario over the rationals *)

Section RationalScenario.
Local Open Scope Q_scope.

Let junk0 : nat -> Q := fun _ => 0.
Let empty : matrix Q := Matrix 0 0 [].

Lemma hessian_column_is_stencil_witness :
  let g1 := (scenario_gradient 4
               (<[1%nat := sadd 2 (smul (lit 2) (1 # 1000))]> [1; 2])).2 in
  let g2 := (scenario_gradient 5
               (<[1%nat := sadd 2 (smul (lit (-2)) (1 # 1000))]> [1; 2])).2 in
  let g3 := (scenario_gradient 6 (<[1%nat := sadd 2 (1 # 1000)]> [1; 2])).2 in
  let g4 := (scenario_gradient 7 (<[1%nat := ssub 2 (1 # 1000)]> [1; 2])).2 in
  exists s,
    (run scenario_gradient scenario_f
       (finite_diff_hessian_AD junk0 [1; 2] 0 empty (1 # 1000)) []).1
      = Some s
    /\ length (col 1 (hess_fx s)) = 2%nat
    /\ forall k a1 a2 a3 a4,
         g1 !! k = Some a1 -> g2 !! k = Some a2 ->
         g3 !! k = Some a3 -> g4 !! k = Some a4 ->
         col 1 (hess_fx s) !! k = Some (stencil (1 # 1000) a1 a2 a3 a4)
         /\ coeff (hess_fx s) k 1 = Some (stencil (1 # 1000) a1 a2 a3 a4).
Proof.
  apply (hessian_column_is_stencil scenario_gradient scenario_f junk0
           [1; 2] 0 empty (1 # 1000) 1 2).
  - apply scenario_gradient_sized.
  - reflexivity.
Defined.

Lemma perturbations_are_isolated_witness :
  let p1 := <[1%nat := sadd 2 (smul (lit 2) (1 # 1000))]> [1; 2] in
  let p2 := <[1%nat := sadd 2 (smul (lit (-2)) (1 # 1000))]> [1; 2] in
  let p3 := <[1%nat := sadd 2 (1 # 1000)]> [1; 2] in
  let p4 := <[1%nat := ssub 2 (1 # 1000)]> [1; 2] in
  exists s s' log,
    run scenario_gradient scenario_f
        (columns (1 # 1000) 1 (enter junk0 [1; 2] 0 empty)) []
      = (Some s, log)
    /\ run scenario_gradient scenario_f
         (columns (1 # 1000) (1 + 1) (enter junk0 [1; 2] 0 empty)) []
      = (Some s',
         log ++ [GradientAt p1; GradientAt p2; GradientAt p3; GradientAt p4])
    /\ x_temp s = [1; 2] /\ x_temp s' = [1; 2]
    /\ forall p, p ∈ [p1; p2; p3; p4] ->
         length p = 2%nat
         /\ forall k, k <> 1%nat -> p !! k = [1; 2] !! k.
Proof.
  apply (perturbations_are_isolated scenario_gradient scenario_f junk0
           [1; 2] 0 empty (1 # 1000) 1 2).
  - apply scenario_gradient_sized.
  - reflexivity.
Defined.

Lemma fx_is_plain_call_witness :
  exists s log,
    run scenario_gradient scenario_f
        (finite_diff_hessian_AD junk0 [1; 2] 0 empty (1 # 1000)) []
      = (Some s, log)
    /\ fx s = scenario_f [1; 2]
    /\ filter (fun e => is_gradient_call e = false) log = [ApplyAt [1; 2]].
Proof.
  apply (fx_is_plain_call scenario_gradient scenario_f junk0
           [1; 2] 0 empty (1 # 1000)).
  apply scenario_gradient_sized.
Defined.

Lemma hessian_shape_witness :
  exists s,
    (run scenario_gradient scenario_f
       (finite_diff_hessian_AD junk0 [1; 2] 0 (Matrix 3 1 [7; 8; 9])
          (1 # 1000)) []).1
      = Some s
    /\ rows (hess_fx s) = 2%nat
    /\ cols (hess_fx s) = 2%nat
    /\ length (coeffs (hess_fx s)) = (2 * 2)%nat.
Proof.
  apply (proj1 (hessian_shape scenario_gradient scenario_f junk0
                  [1; 2] 0 (Matrix 3 1 [7; 8; 9]) (1 # 1000))).
  apply scenario_gradient_sized.
Defined.

Lemma input_point_unchanged_witness :
  (exists s,
     (run scenario_gradient scenario_f
        (finite_diff_hessian_AD junk0 [1; 2] 0 empty (1 # 1000)) []).1
       = Some s
     /\ x s = [1; 2])
  /\ forall n, (n <= 2)%nat ->
       exists s,
         (run scenario_gradient scenario_f
            (columns (1 # 1000) n (enter junk0 [1; 2] 0 empty)) []).1
           = Some s
         /\ x s = [1; 2].
Proof.
  apply (input_point_unchanged scenario_gradient scenario_f junk0
           [1; 2] 0 empty (1 # 1000)).
  apply scenario_gradient_sized.
Defined.

Lemma oracle_call_count_witness :
  exists s log,
    run scenario_gradient scenario_f
        (finite_diff_hessian_AD junk0 [1; 2] 0 empty (1 # 1000)) []
      = (Some s, log)
    /\ log = (i ← seq 0 2; GradientAt <$> probes (1 # 1000) [1; 2] i)
               ++ [ApplyAt [1; 2]]
    /\ (forall i, (i < 2)%nat ->
          length (probes (1 # 1000) [1; 2] i) = 4%nat)
    /\ calls log = (4 * 2)%nat
    /\ length (filter (fun e => is_gradient_call e = false) log) = 1%nat.
Proof.
  apply (proj1 (oracle_call_count scenario_gradient scenario_f junk0
                  [1; 2] 0 empty (1 # 1000))).
  apply scenario_gradient_sized.
Defined.

Lemma value_component_is_discarded_witness :
  exists s1 s2 log,
    run scenario_gradient scenario_f
        (finite_diff_hessian_AD junk0 [1; 2] 0 empty (1 # 1000)) []
      = (Some s1, log)
    /\ run (fun n p => (0, (scenario_gradient n p).2)) scenario_f
         (finite_diff_hessian_AD junk0 [1; 2] 0 empty (1 # 1000)) []
      = (Some s2, log)
    /\ fx s1 = fx s2
    /\ hess_fx s1 = hess_fx s2.
Proof.
  apply (value_component_is_discarded scenario_gradient
           (fun n p => (0, (scenario_gradient n p).2)) scenario_f junk0
           [1; 2] 0 empty (1 # 1000)).
  - apply scenario_gradient_sized.
  - reflexivity.
Defined.

Lemma step_size_is_not_validated_witness :
  exists s,
    run scenario_gradient scenario_f
        (finite_diff_hessian_AD junk0 [1; 2] 0 empty 0) []
      = (Some s, full_log 0 [1; 2])
    /\ fx s = scenario_f [1; 2]
    /\ rows (hess_fx s) = 2%nat
    /\ cols (hess_fx s) = 2%nat.
Proof.
  apply (proj1 step_size_is_not_validated Q Q_scalar scenario_gradient
           scenario_f junk0 [1; 2] 0 empty 0).
  apply scenario_gradient_sized.
Defined.
End RationalScenario.

(** ** Quadratic forms *)

Section QuadraticFacts.
Local Open Scope R_scope.

Lemma coord_lookup (p : list R) k a : p !! k = Some a -> coord p k = a.
Proof. intros Hk. unfold coord. by rewrite Hk. Qed.

Lemma lookup_coord (p : list R) k :
  (k < length p)%nat -> p !! k = Some (coord p k).
Proof.
  intros Hk. destruct (lookup_lt_is_Some_2 _ _ Hk) as [a Ha].
  by rewrite (coord_lookup _ _ _ Ha).
Qed.

Lemma coord_insert (p : list R) k j t :
  (k < length p)%nat ->
  coord (<[k := t]> p) j = if decide (j = k) then t else coord p j.
Proof.
  intros Hk. unfold coord. case_decide as Hj.
  - subst j. by rewrite list_lookup_insert_eq.
  - by rewrite list_lookup_insert_ne.
Qed.

Lemma sum_below_ext n (t u : nat -> R) :
  (forall j, (j < n)%nat -> t j = u j) -> sum_below n t = sum_below n u.
Proof.
  induction n as [|n IH]; intros Heq; [done|]. simpl.
  rewrite IH, Heq by (intros; auto with lia). done.
Qed.

Lemma sum_below_plus n (t u : nat -> R) :
  sum_below n (fun j => t j + u j) = sum_below n t + sum_below n u.
Proof. induction n as [|n IH]; simpl; [lra|rewrite IH; lra]. Qed.

Lemma sum_below_zero n : sum_below n (fun _ => 0) = 0.
Proof. induction n as [|n IH]; simpl; lra. Qed.

(** A sum against the indicator of [k] picks the term at [k]. *)
Lemma sum_below_pick n k (t : nat -> R) :
  (k < n)%nat ->
  sum_below n (fun j => if decide (j = k) then t j else 0) = t k.
Proof.
  induction n as [|n IH]; intros Hk; [lia|]. simpl.
  destruct (decide (n = k)) as [->|Hne].
  - rewrite (sum_below_ext k _ (fun _ => 0)).
    + rewrite sum_below_zero. lra.
    + intros j Hj. rewrite decide_False by lia. done.
  - rewrite IH by lia. lra.
Qed.

Lemma derivable_sum_below n (u : nat -> R -> R) (u' : nat -> R) a :
  (forall j, (j < n)%nat -> derivable_pt_lim (u j) a (u' j)) ->
  derivable_pt_lim (fun t => sum_below n (fun j => u j t)) a (sum_below n u').
Proof.
  induction n as [|n IH]; intros Hu; simpl.
  - apply (derivable_pt_lim_const 0).
  - apply (derivable_pt_lim_plus
             (fun t => sum_below n (fun j => u j t)) (u n)); auto.
Qed.

Lemma sum_below_indicator_l n k (t : nat -> R) :
  (k < n)%nat -> sum_below n (fun j => indicator j k * t j) = t k.
Proof.
  intros Hk. rewrite <- (sum_below_pick n k t Hk).
  apply sum_below_ext. intros j _. unfold indicator.
  case_decide; lra.
Qed.

Lemma sum_below_indicator_r n k (t : nat -> R) :
  (k < n)%nat -> sum_below n (fun j => t j * indicator j k) = t k.
Proof.
  intros Hk. rewrite <- (sum_below_indicator_l n k t Hk).
  apply sum_below_ext. intros j _. lra.
Qed.

Lemma derivable_coord (p : list R) k j a :
  (k < length p)%nat ->
  derivable_pt_lim (fun t => coord (<[k := t]> p) j) a (indicator j k).
Proof.
  intros Hk. unfold indicator. case_decide as Hj.
  - apply (derivable_pt_lim_ext id); [|apply derivable_pt_lim_id].
    intros t. rewrite coord_insert, decide_True by done. done.
  - apply (derivable_pt_lim_ext (fct_cte (coord p j)));
      [|apply derivable_pt_lim_const].
    intros t. rewrite coord_insert, decide_False by done. done.
Qed.

Lemma insert_coord (p : list R) k :
  (k < length p)%nat -> <[k := coord p k]> p = p.
Proof. intros Hk. apply list_insert_id. by apply lookup_coord. Qed.

Lemma derivable_row_times A r (p : list R) k :
  (k < length p)%nat ->
  derivable_pt_lim (fun t => row_times A r (<[k := t]> p)) (coord p k)
    (sum_below (cols A) (fun c => entry A r c * indicator c k)).
Proof.
  intros Hk. unfold row_times.
  apply (derivable_sum_below (cols A)
           (fun c t => entry A r c * coord (<[k := t]> p) c)).
  intros c _.
  apply (derivable_pt_lim_scal (fun t => coord (<[k := t]> p) c)).
  by apply derivable_coord.
Qed.

(** The gradient of [p^T A p] for symmetric [A] is [2 A p]. *)
Lemma quadratic_form_partial A (p : list R) k :
  symmetric A -> length p = rows A -> (k < rows A)%nat ->
  partial_derivative (quadratic_form A) p k (2 * row_times A k p).
Proof.
  intros (Hc & Hlen & Hsym) Hp Hk.
  unfold partial_derivative, quadratic_form.
  assert (k < length p)%nat as Hkp by lia.
  replace (2 * row_times A k p) with
    (sum_below (rows A)
       (fun r => indicator r k * row_times A r (<[k := coord p k]> p)
                 + coord (<[k := coord p k]> p) r
                   * sum_below (cols A)
                       (fun c => entry A r c * indicator c k))).
  - apply (derivable_sum_below (rows A)
             (fun r t => coord (<[k := t]> p) r
                         * row_times A r (<[k := t]> p))).
    intros r _.
    apply (derivable_pt_lim_mult
             (fun t => coord (<[k := t]> p) r)
             (fun t => row_times A r (<[k := t]> p))).
    + by apply derivable_coord.
    + by apply derivable_row_times.
  - rewrite insert_coord by done.
    rewrite sum_below_plus, sum_below_indicator_l by done.
    rewrite (sum_below_ext _ _ (fun r => entry A k r * coord p r)).
    + unfold row_times. rewrite Hc. lra.
    + intros r Hr.
      rewrite sum_below_indicator_r by lia.
      rewrite (Hsym r k) by done. lra.
Qed.

Lemma row_times_insert A r (p : list R) k v :
  (k < length p)%nat -> (k < cols A)%nat ->
  row_times A r (<[k := v]> p)
    = row_times A r p + entry A r k * (v - coord p k).
Proof.
  intros Hk Hc. unfold row_times.
  rewrite <- (sum_below_indicator_l (cols A) k
                (fun c => entry A r c * (v - coord p c)) Hc).
  rewrite <- sum_below_plus. apply sum_below_ext. intros c _.
  rewrite coord_insert by done. unfold indicator. case_decide; lra.
Qed.

(** An exact oracle for a function that is [p^T A p] on the points of
    length [rows A] answers [2 A p]. *)
Lemma exact_gradient_quadratic A f gradient n (p : list R) k :
  symmetric A ->
  (forall q, length q = rows A -> f q = quadratic_form A q) ->
  exact_gradient f (rows A) gradient ->
  length p = rows A -> (k < rows A)%nat ->
  (gradient n p).2 !! k = Some (2 * row_times A k p).
Proof.
  intros Hsym Hf Hex Hp Hk.
  destruct (Hex n p Hp) as [Hlen Hpart].
  rewrite lookup_coord by lia. f_equal.
  apply (uniqueness_limite (fun t => f (<[k := t]> p)) (coord p k)).
  - by apply Hpart.
  - apply (derivable_pt_lim_ext
             (fun t => quadratic_form A (<[k := t]> p))).
    + intros t. symmetry. apply Hf. by rewrite length_insert.
    + by apply quadratic_form_partial.
Qed.

Lemma stencil_linear (epsilon m a xi : R) :
  epsilon <> 0 ->
  stencil epsilon
    (2 * (m + a * (sadd xi (smul (lit 2) epsilon) - xi)))
    (2 * (m + a * (sadd xi (smul (lit (-2)) epsilon) - xi)))
    (2 * (m + a * (sadd xi epsilon - xi)))
    (2 * (m + a * (ssub xi epsilon - xi)))
  = 2 * a.
Proof. intros He. unfold stencil. cbn. field. done. Qed.

Lemma scenario_A_symmetric : symmetric scenario_A.
Proof.
  split; [done|]. split; [done|].
  intros [|[|r]] [|[|c]] Hr Hc; simpl in *; try lia; done.
Qed.

Lemma scenario_f_quadratic (p : list R) :
  length p = 2%nat -> scenario_f p = quadratic_form scenario_A p.
Proof.
  destruct p as [|a [|b [|c p]]]; intros Hp; simplify_eq/=.
  unfold quadratic_form, row_times, coord, entry. cbn. lra.
Qed.

Lemma hessian_of_quadratic_form A f gradient junk (x0 : list R) fx0 hess0
    epsilon :
  symmetric A ->
  length x0 = rows A ->
  (forall p, length p = rows A -> f p = quadratic_form A p) ->
  exact_gradient f (rows A) gradient ->
  epsilon <> 0 ->
  exists s,
    (run gradient f (finite_diff_hessian_AD junk x0 fx0 hess0 epsilon) []).1
      = Some s
    /\ fx s = quadratic_form A x0
    /\ hess_fx s
       = Matrix (rows A) (rows A) ((fun a => 2 * a) <$> coeffs A).
Proof.
  intros Hsym Hx0 Hf Hex He.
  assert (sized gradient (length x0)) as Hsz.
  { intros n p Hp. rewrite Hx0 in *. by apply Hex. }
  destruct (run_finite_diff_hessian_AD gradient f junk x0 fx0 hess0 epsilon
              Hsz)
    as (s & Hrun & _ & Hfx & _ & Hr & Hc & Hlen & Hcols).
  exists s. rewrite Hrun. split; [done|].
  split; [rewrite Hfx; by apply Hf|].
  destruct Hsym as (HcA & HlenA & HsymA).
  pose proof (conj HcA (conj HlenA HsymA)) as Hsym.
  apply matrix_ext; cbn [rows cols coeffs]; try lia.
  { rewrite length_fmap. lia. }
  intros j Hj. rewrite Hc in Hj. rewrite Hcols by done.
  assert (j < length x0)%nat as Hjx by done.
  destruct (lookup_lt_is_Some_2 _ _ Hjx) as [xj Hxj].
  apply list_eq. intros k.
  destruct (decide (k < rows A)%nat) as [Hk|Hk].
  - rewrite lookup_col by done. cbn [rows coeffs].
    rewrite list_lookup_fmap.
    assert (coeffs A !! (j * rows A + k)%nat = Some (entry A k j)) as ->.
    { unfold entry. rewrite lookup_coord by nia. done. }
    cbn [fmap option_fmap option_map].
    unfold column, answer. rewrite (probes_Some _ _ _ _ Hxj).
    cbn [offsets fmap list_fmap lookup list_lookup].
    erewrite lookup_combine; cycle 1.
    1-4: apply (exact_gradient_quadratic A f); auto;
         rewrite length_insert; lia.
    f_equal.
    rewrite !row_times_insert by lia.
    rewrite (coord_lookup _ _ _ Hxj).
    by apply stencil_linear.
  - rewrite lookup_ge_None_2; cycle 1.
    { rewrite length_column by done. lia. }
    symmetry. apply lookup_ge_None_2. unfold col. cbn [rows coeffs].
    rewrite length_take. lia.
Qed.

(** C2. Over the reals, for a symmetric [A], a function that is the
    quadratic form [p^T A p] on the points of the length of [x0], an
    oracle whose every answer is the vector of partial derivatives of that
    function at the point asked, and a positive [epsilon]: the run returns
    [fx = x0^T A x0] and the matrix [2 A].  In particular at [x0 = (1, 2)]
    with [f(p) = p0^2 + p0 p1 + p1^2] it returns [fx = 7] and the matrix
    with rows [(2, 1)] and [(1, 2)]. *)
Theorem quadratic_form_hessian_is_2A :
  (forall A f gradient junk (x0 : list R) fx0 hess0 epsilon,
     symmetric A ->
     length x0 = rows A ->
     (forall p, length p = rows A -> f p = quadratic_form A p) ->
     exact_gradient f (rows A) gradient ->
     0 < epsilon ->
     exists s,
       (run gradient f (finite_diff_hessian_AD junk x0 fx0 hess0 epsilon) []).1
         = Some s
       /\ fx s = quadratic_form A x0
       /\ hess_fx s
          = Matrix (rows A) (rows A) ((fun a => 2 * a) <$> coeffs A))
  /\ (forall gradient junk fx0 hess0 epsilon,
        exact_gradient scenario_f 2 gradient ->
        0 < epsilon ->
        exists s,
          (run gradient scenario_f
             (finite_diff_hessian_AD junk [1; 2] fx0 hess0 epsilon) []).1
            = Some s
          /\ fx s = 7
          /\ hess_fx s = Matrix 2 2 [2; 1; 1; 2]).
Proof.
  split.
  - intros A f gradient junk x0 fx0 hess0 epsilon Hsym Hx0 Hf Hex He.
    apply hessian_of_quadratic_form; auto. lra.
  - intros gradient junk fx0 hess0 epsilon Hex He.
    destruct (hessian_of_quadratic_form scenario_A scenario_f gradient junk [1; 2]
                fx0 hess0 epsilon)
      as (s & Hrun & Hfx & Hhess);
      auto using scenario_A_symmetric, scenario_f_quadratic.
    { lra. }
    exists s. split; [done|]. split.
    + rewrite Hfx. unfold quadratic_form, row_times, coord, entry. cbn. lra.
    + rewrite Hhess. cbn. repeat f_equal; lra.
Qed.
(** The gradient of the scenario is exact. *)
Lemma scenario_gradient_exact : exact_gradient scenario_f 2 scenario_gradient.
Proof.
  intros n p Hp. split; [by apply scenario_gradient_sized|].
  intros k Hk.
  unfold partial_derivative.
  apply (derivable_pt_lim_ext
           (fun t => quadratic_form scenario_A (<[k := t]> p))).
  { intros t. symmetry. apply scenario_f_quadratic. by rewrite length_insert. }
  replace (coord (scenario_gradient n p).2 k)
    with (2 * row_times scenario_A k p).
  - apply quadratic_form_partial; auto using scenario_A_symmetric.
  - destruct p as [|a [|b [|c p]]]; simplify_eq/=.
    destruct k as [|[|k]]; try lia;
      unfold row_times, coord, entry; cbn; lra.
Qed.

Lemma quadratic_form_hessian_is_2A_witness :
  exists s,
    (run scenario_gradient scenario_f
       (finite_diff_hessian_AD (fun _ => 0) [1; 2] 0 (Matrix 0 0 [])
          (1 / 1000)) []).1
      = Some s
    /\ fx s = 7
    /\ hess_fx s = Matrix 2 2 [2; 1; 1; 2].
Proof.
  apply (proj2 quadratic_form_hessian_is_2A scenario_gradient
           (fun _ => 0) 0 (Matrix 0 0 []) (1 / 1000)).
  - apply scenario_gradient_exact.
  - lra.
Defined.
End QuadraticFacts.

(** ** The loop that initialises [C] *)

Section MomentInitFacts.
Context {K : Type} `{Scalar K} {store : Type}.
Variable write : store -> Z -> Z -> K -> option store.
Variables y_rows y_cols : Z.
Hypothesis some_row : (1 <= y_rows)%Z.
Hypothesis some_col : (1 <= y_cols)%Z.

Lemma wrap32_succ (a : Z) : wrap32 (wrap32 a + 1) = wrap32 (a + 1).
Proof.
  unfold wrap32. f_equal.
  replace ((a + 2 ^ 31) mod 2 ^ 32 - 2 ^ 31 + 1 + 2 ^ 31)%Z
    with ((a + 2 ^ 31) mod 2 ^ 32 + 1)%Z by lia.
  rewrite Zplus_mod_idemp_l. f_equal. lia.
Qed.

Lemma inner_guard_holds : (0 <? y_cols)%Z = true.
Proof. apply Z.ltb_lt. lia. Qed.

Lemma outer_guard_holds : (0 <? y_rows)%Z = true.
Proof. apply Z.ltb_lt. lia. Qed.

(** From the inner loop with [j = 0], every later state is in the inner
    loop with [j = 0], or stopped by an assertion. *)
Lemma steps_inner n i C :
  (steps write y_rows y_cols n (Inner i 0) C).1 = Failed
  \/ exists i', (steps write y_rows y_cols n (Inner i 0) C).1 = Inner i' 0.
Proof.
  revert i C. induction n as [|n IH]; intros i C; simpl.
  - right. by exists i.
  - rewrite inner_guard_holds.
    destruct (write C i 0 _) as [C'|]; [apply IH|].
    left. clear. induction n as [|n IH]; simpl; done.
Qed.

Lemma fill_C_inner fuel i C C' :
  fill_C write y_rows y_cols fuel (Inner i 0) C <> Finished C'.
Proof.
  revert i C. induction fuel as [|fuel IH]; intros i C; simpl; [done|].
  rewrite inner_guard_holds.
  destruct (write C i 0 _) as [C1|]; [apply IH|].
  destruct fuel; done.
Qed.

Lemma steps_inner_total n k C :
  (forall C i j v, is_Some (write C i j v)) ->
  exists C',
    steps write y_rows y_cols n (Inner (wrap32 (Z.of_nat k)) 0) C
      = (Inner (wrap32 (Z.of_nat (k + n))) 0, C').
Proof.
  intros Hw. revert k C. induction n as [|n IH]; intros k C; simpl.
  - exists C. by rewrite Nat.add_0_r.
  - rewrite inner_guard_holds.
    destruct (Hw C (wrap32 (Z.of_nat k)) 0%Z
                (if (wrap32 (Z.of_nat k) =? 0)%Z then lit 1 else lit 0))
      as [C1 ->].
    rewrite wrap32_succ.
    replace (Z.of_nat k + 1)%Z with (Z.of_nat (k + 1)) by lia.
    destruct (IH (k + 1)%nat C1) as [C' ->]. exists C'.
    by replace (k + 1 + n)%nat with (k + Datatypes.S n)%nat by lia.
Qed.

Lemma fill_C_inner_total fuel i C :
  (forall C i j v, is_Some (write C i j v)) ->
  fill_C write y_rows y_cols fuel (Inner i 0) C = OutOfFuel.
Proof.
  intros Hw. revert i C. induction fuel as [|fuel IH]; intros i C; simpl;
    [done|].
  rewrite inner_guard_holds.
  destruct (Hw C i 0%Z (if (i =? 0)%Z then lit 1 else lit 0)) as [C1 ->].
  apply IH.
Qed.

(** C9. With at least one row and one column in [y], whatever the
    coefficient write does: after the first test control is in the inner
    loop with [j = 0] for ever, unless an assertion of the write stopped
    it, so no number of tests brings the loop nest to its end; and when
    the write never fails, after [n + 1] tests [i] is [n] (as an [int])
    and [j] is still 0, and the bounded run is out of fuel for every
    bound. *)
Theorem moment_init_loop_never_finishes (C0 : store) :
  (forall n,
     (steps write y_rows y_cols (Datatypes.S n) (Outer 0) C0).1 = Failed
     \/ exists i,
          (steps write y_rows y_cols (Datatypes.S n) (Outer 0) C0).1
            = Inner i 0)
  /\ (forall fuel C,
        fill_C write y_rows y_cols fuel (Outer 0) C0 <> Finished C)
  /\ ((forall C i j v, is_Some (write C i j v)) ->
      (forall n, exists C,
         steps write y_rows y_cols (Datatypes.S n) (Outer 0) C0
           = (Inner (wrap32 (Z.of_nat n)) 0, C))
      /\ forall fuel,
           fill_C write y_rows y_cols fuel (Outer 0) C0 = OutOfFuel).
Proof.
  split; [|split].
  - intros n. simpl. rewrite outer_guard_holds. apply steps_inner.
  - intros [|fuel] C; simpl; [done|].
    rewrite outer_guard_holds. apply fill_C_inner.
  - intros Hw. split.
    + intros n. simpl. rewrite outer_guard_holds.
      apply (steps_inner_total n 0 C0 Hw).
    + intros [|fuel]; simpl; [done|].
      rewrite outer_guard_holds. by apply fill_C_inner_total.
Qed.
End MomentInitFacts.

(** With the range assertion the run of the nest on a 2 by 2 [C] is cut
    short at [C(2, 0)]; without it the run goes on. *)
Lemma fill_C_checked :
  fill_C write_checked 1 1 10 (Outer 0) (Matrix 2 2 [0; 0; 0; 0]%Q)
    = AssertionFailed.
Proof. reflexivity. Qed.

Lemma moment_init_loop_never_finishes_witness :
  (forall n,
     (steps (write_raw 2) 1 1 (Datatypes.S n) (Outer 0) (fun _ => 0%Q)).1
       = Failed
     \/ exists i,
          (steps (write_raw 2) 1 1 (Datatypes.S n) (Outer 0) (fun _ => 0%Q)).1
            = Inner i 0)
  /\ (forall fuel C,
        fill_C (write_raw 2) 1 1 fuel (Outer 0) (fun _ => 0%Q) <> Finished C)
  /\ ((forall (C : Z -> Q) i j v, is_Some (write_raw 2 C i j v)) ->
      (forall n, exists C,
         steps (write_raw 2) 1 1 (Datatypes.S n) (Outer 0) (fun _ => 0%Q)
           = (Inner (wrap32 (Z.of_nat n)) 0, C))
      /\ forall fuel,
           fill_C (write_raw 2) 1 1 fuel (Outer 0) (fun _ => 0%Q)
             = OutOfFuel).
Proof.
  apply (moment_init_loop_never_finishes (write_raw 2) 1 1); lia.
Defined.

(** ** Further properties of [finite_diff_hessian_AD] *)

Lemma column_local {K : Type} `{Scalar K}
    (gradient1 gradient2 : nat -> list K -> K * list K) epsilon x0 i :
  (forall j p, j < 4 ->
     (gradient1 (4 * i + j) p).2 = (gradient2 (4 * i + j) p).2) ->
  column gradient1 epsilon x0 i = column gradient2 epsilon x0 i.
Proof.
  intros Heq. unfold column, answer.
  repeat match goal with
         | |- context [probes epsilon x0 i !! ?j] =>
             destruct (probes epsilon x0 i !! j)
         end; rewrite ?Heq by lia; done.
Qed.

(** X1. Column [i] of the result depends on the oracle only through the
    gradients it returns to its calls number [4 i] to [4 i + 3]: two
    oracles that agree there give the same column [i], whatever they
    answer to the calls of the other dimensions. *)
Theorem column_depends_on_its_own_calls {K : Type} `{Scalar K}
    (gradient1 gradient2 : nat -> list K -> K * list K) (f : list K -> K)
    junk (x0 : list K) fx0 hess0 epsilon i :
  sized gradient1 (length x0) ->
  sized gradient2 (length x0) ->
  i < length x0 ->
  (forall j p, j < 4 ->
     (gradient1 (4 * i + j) p).2 = (gradient2 (4 * i + j) p).2) ->
  exists s1 s2,
    (run gradient1 f (finite_diff_hessian_AD junk x0 fx0 hess0 epsilon) []).1
      = Some s1
    /\ (run gradient2 f (finite_diff_hessian_AD junk x0 fx0 hess0 epsilon) []).1
      = Some s2
    /\ col i (hess_fx s1) = col i (hess_fx s2).
Proof.
  intros Hsz1 Hsz2 Hi Heq.
  destruct (run_finite_diff_hessian_AD gradient1 f junk x0 fx0 hess0 epsilon
              Hsz1) as (s1 & Hrun1 & _ & _ & _ & _ & _ & _ & Hcols1).
  destruct (run_finite_diff_hessian_AD gradient2 f junk x0 fx0 hess0 epsilon
              Hsz2) as (s2 & Hrun2 & _ & _ & _ & _ & _ & _ & Hcols2).
  exists s1, s2. rewrite Hrun1, Hrun2. split; [done|]. split; [done|].
  rewrite Hcols1, Hcols2 by done. by apply column_local.
Qed.

(** X2. What the caller gets back does not depend on what [fx] and
    [hess_fx] held before the call, nor on what uninitialised storage
    holds: every coefficient of the result is written by the call. *)
Theorem outputs_are_fully_overwritten {K : Type} `{Scalar K}
    (gradient : nat -> list K -> K * list K) (f : list K -> K)
    junk junk' (x0 : list K) fx0 fx0' hess0 hess0' epsilon :
  sized gradient (length x0) ->
  exists s s',
    (run gradient f (finite_diff_hessian_AD junk x0 fx0 hess0 epsilon) []).1
      = Some s
    /\ (run gradient f
          (finite_diff_hessian_AD junk' x0 fx0' hess0' epsilon) []).1
      = Some s'
    /\ fx s = fx s'
    /\ hess_fx s = hess_fx s'.
Proof.
  intros Hsz.
  destruct (run_finite_diff_hessian_AD gradient f junk x0 fx0 hess0 epsilon
              Hsz) as (s & Hrun & _ & Hfx & _ & Hr & Hc & Hlen & Hcols).
  destruct (run_finite_diff_hessian_AD gradient f junk' x0 fx0' hess0' epsilon
              Hsz) as (s' & Hrun' & _ & Hfx' & _ & Hr' & Hc' & Hlen' & Hcols').
  exists s, s'. rewrite Hrun, Hrun'.
  split; [done|]. split; [done|]. split; [congruence|].
  apply matrix_ext; try congruence.
  intros j Hj. rewrite Hc in Hj. by rewrite Hcols, Hcols'.
Qed.

Section RealStencil.
Local Open Scope R_scope.

Lemma column_lookup (gradient : nat -> list R -> R * list R) epsilon
    (x0 : list R) i xi k a1 a2 a3 a4 :
  x0 !! i = Some xi ->
  (gradient (4 * i)%nat (<[i := xi + 2 * epsilon]> x0)).2 !! k = Some a1 ->
  (gradient (4 * i + 1)%nat (<[i := xi + -2 * epsilon]> x0)).2 !! k
    = Some a2 ->
  (gradient (4 * i + 2)%nat (<[i := xi + epsilon]> x0)).2 !! k = Some a3 ->
  (gradient (4 * i + 3)%nat (<[i := xi - epsilon]> x0)).2 !! k = Some a4 ->
  column gradient epsilon x0 i !! k = Some (stencil epsilon a1 a2 a3 a4).
Proof.
  intros Hxi H1 H2 H3 H4.
  unfold column, answer. rewrite (probes_Some _ _ _ _ Hxi).
  cbn [offsets fmap list_fmap lookup list_lookup].
  rewrite Nat.add_0_r. by apply lookup_combine.
Qed.

Lemma stencil_quintic (epsilon a0 a1 a2 a3 a4 a5 : R) :
  epsilon <> 0 ->
  let q := fun t =>
    a0 + a1 * t + a2 * t ^ 2 + a3 * t ^ 3 + a4 * t ^ 4 + a5 * t ^ 5 in
  stencil epsilon (q (2 * epsilon)) (q (-2 * epsilon)) (q epsilon)
    (q (- epsilon))
  = a1 - 4 * a5 * epsilon ^ 4.
Proof. intros He q. unfold stencil, q. cbn. field. done. Qed.

(** X3. Accuracy of the stencil, over the reals.  If, along coordinate
    [i] through [x0], coefficient [k] of the gradient the oracle returns
    is the polynomial [a0 + a1 t + ... + a5 t^5] of the offset [t], then
    coefficient [(k, i)] of the result is [a1 - 4 a5 epsilon^4]: the
    derivative [a1] exactly when the degree is at most 4, and off by
    [4 a5 epsilon^4] at degree 5. *)
Theorem stencil_is_fourth_order
    (gradient : nat -> list R -> R * list R) (f : list R -> R)
    junk (x0 : list R) fx0 hess0 epsilon i k xi a0 a1 a2 a3 a4 a5 :
  sized gradient (length x0) ->
  x0 !! i = Some xi ->
  (k < length x0)%nat ->
  epsilon <> 0 ->
  (forall n t,
     (gradient n (<[i := xi + t]> x0)).2 !! k
       = Some (a0 + a1 * t + a2 * t ^ 2 + a3 * t ^ 3 + a4 * t ^ 4
               + a5 * t ^ 5)) ->
  exists s,
    (run gradient f (finite_diff_hessian_AD junk x0 fx0 hess0 epsilon) []).1
      = Some s
    /\ coeff (hess_fx s) k i = Some (a1 - 4 * a5 * epsilon ^ 4).
Proof.
  intros Hsz Hxi Hk He Hq.
  pose proof (lookup_lt_Some _ _ _ Hxi) as Hi.
  destruct (run_finite_diff_hessian_AD gradient f junk x0 fx0 hess0 epsilon
              Hsz) as (s & Hrun & _ & _ & _ & Hr & Hc & _ & Hcols).
  exists s. rewrite Hrun. split; [done|].
  unfold coeff. rewrite decide_True by lia.
  rewrite <- lookup_col by lia. rewrite Hcols by done.
  rewrite (column_lookup gradient epsilon x0 i xi k _ _ _ _ Hxi
             (Hq _ (2 * epsilon)) (Hq _ (-2 * epsilon)) (Hq _ epsilon)
             (Hq _ (- epsilon))).
  f_equal. by apply stencil_quintic.
Qed.

Lemma combine_opp epsilon (g1 g2 g3 g4 : list R) :
  length g1 = length g2 -> length g2 = length g3 -> length g3 = length g4 ->
  combine (- epsilon) g2 g1 g4 g3 = combine epsilon g1 g2 g3 g4.
Proof.
  intros H12 H23 H34. apply list_eq. intros k.
  destruct (decide (k < length g1)%nat) as [Hk|Hk].
  - destruct (lookup_lt_is_Some_2 g1 k Hk) as [a1 Ha1].
    destruct (lookup_lt_is_Some_2 g2 k) as [a2 Ha2]; [lia|].
    destruct (lookup_lt_is_Some_2 g3 k) as [a3 Ha3]; [lia|].
    destruct (lookup_lt_is_Some_2 g4 k) as [a4 Ha4]; [lia|].
    erewrite !lookup_combine by eassumption.
    f_equal. unfold stencil. cbn.
    destruct (Req_dec epsilon 0) as [->|He].
    + rewrite Ropp_0. unfold Rdiv. rewrite Rmult_0_r, Rinv_0. lra.
    + field. done.
  - rewrite !lookup_ge_None_2; [done|..];
      rewrite (length_combine _ _ _ _ _ (length g1)) by lia; lia.
Qed.
Lemma column_opp (gradient : nat -> list R -> R * list R) epsilon
    (x0 : list R) i :
  sized gradient (length x0) ->
  (forall n m p, (gradient n p).2 = (gradient m p).2) ->
  (i < length x0)%nat ->
  column gradient (- epsilon) x0 i = column gradient epsilon x0 i.
Proof.
  intros Hsz Hpure Hi.
  destruct (lookup_lt_is_Some_2 _ _ Hi) as [xi Hxi].
  unfold column, answer. rewrite !(probes_Some _ _ _ _ Hxi).
  cbn [offsets fmap list_fmap lookup list_lookup].
  cbn [sadd ssub smul lit R_scalar].
  replace (xi + 2 * - epsilon) with (xi + -2 * epsilon) by lra.
  replace (xi + -2 * - epsilon) with (xi + 2 * epsilon) by lra.
  replace (xi + - epsilon) with (xi - epsilon) by lra.
  replace (xi - - epsilon) with (xi + epsilon) by lra.
  rewrite (Hpure (4 * i + 0)%nat (4 * i + 1)%nat
             (<[i := xi + -2 * epsilon]> x0)).
  rewrite (Hpure (4 * i + 1)%nat (4 * i + 0)%nat
             (<[i := xi + 2 * epsilon]> x0)).
  rewrite (Hpure (4 * i + 2)%nat (4 * i + 3)%nat
             (<[i := xi - epsilon]> x0)).
  rewrite (Hpure (4 * i + 3)%nat (4 * i + 2)%nat
             (<[i := xi + epsilon]> x0)).
  apply combine_opp; rewrite !Hsz by apply length_insert; done.
Qed.

(** X4. Over the reals the sign of the step does not matter: with an
    oracle that returns the same gradient for the same point at every
    call, the call with [- epsilon] returns the same [fx] and the same
    matrix as the call with [epsilon]. *)
Theorem step_sign_is_irrelevant
    (gradient : nat -> list R -> R * list R) (f : list R -> R)
    junk (x0 : list R) fx0 hess0 epsilon :
  sized gradient (length x0) ->
  (forall n m p, (gradient n p).2 = (gradient m p).2) ->
  exists s s',
    (run gradient f (finite_diff_hessian_AD junk x0 fx0 hess0 epsilon) []).1
      = Some s
    /\ (run gradient f
          (finite_diff_hessian_AD junk x0 fx0 hess0 (- epsilon)) []).1
      = Some s'
    /\ fx s' = fx s
    /\ hess_fx s' = hess_fx s.
Proof.
  intros Hsz Hpure.
  destruct (run_finite_diff_hessian_AD gradient f junk x0 fx0 hess0 epsilon
              Hsz) as (s & Hrun & _ & Hfx & _ & Hr & Hc & Hlen & Hcols).
  destruct (run_finite_diff_hessian_AD gradient f junk x0 fx0 hess0
              (- epsilon) Hsz)
    as (s' & Hrun' & _ & Hfx' & _ & Hr' & Hc' & Hlen' & Hcols').
  exists s, s'. rewrite Hrun, Hrun'.
  split; [done|]. split; [done|]. split; [congruence|].
  apply matrix_ext; try congruence.
  intros j Hj. rewrite Hc' in Hj.
  rewrite Hcols, Hcols' by done. by apply column_opp.
Qed.
End RealStencil.

(** ** Gradients of the wrong length *)

Section WrongLength.
Context {K : Type} `{Scalar K}.
Variable gradient : nat -> list K -> K * list K.
Variable f : list K -> K.

Lemma vadd_None (a b : list K) : length a <> length b -> vadd a b = None.
Proof. intros. unfold vadd. by rewrite decide_False. Qed.

Lemma vsub_None (a b : list K) : length a <> length b -> vsub a b = None.
Proof. intros. unfold vsub. by rewrite decide_False. Qed.

Lemma assign_col_None i (g : list K) (m : matrix K) :
  length g <> rows m -> assign_col i g m = None.
Proof. intros. unfold assign_col. rewrite decide_False; [done|tauto]. Qed.

Lemma run_check_None {A B} (o : option A) (h : A -> prog K B) log :
  o = None -> run gradient f (bind (check o) h) log = (None, log).
Proof. by intros ->. Qed.

Ltac frame_cbn :=
  cbn [x fx hess_fx x_temp g_auto dummy_fx_eval
       set_x_temp set_hess_fx set_fx set_gradient fst snd].

Lemma run_body_cases epsilon i s log :
  x_temp s = x s ->
  i < length (x s) ->
  rows (hess_fx s) = length (x s) ->
  cols (hess_fx s) = length (x s) ->
  calls log = 4 * i ->
  (well_sized gradient epsilon (x s) i
   /\ exists v g,
        run gradient f (body epsilon (length (x s)) i s) log =
          (Some (Frame (x s) (fx s)
                   (Matrix (length (x s)) (length (x s))
                      (take (i * length (x s)) (coeffs (hess_fx s))
                         ++ column gradient epsilon (x s) i
                         ++ drop ((i + 1) * length (x s))
                              (coeffs (hess_fx s))))
                   (x s) g v),
           log ++ (GradientAt <$> probes epsilon (x s) i)))
  \/ (~ well_sized gradient epsilon (x s) i
      /\ (run gradient f (body epsilon (length (x s)) i s) log).1 = None).
Proof.
  destruct s as [x0 fx0 H0 xt g0 v0]. frame_cbn.
  intros -> Hi Hr Hc Hlog.
  destruct (lookup_lt_is_Some_2 _ _ Hi) as [xi Hxi].
  assert (well_sized gradient epsilon x0 i <->
          length (answer gradient epsilon x0 i 0) = length x0
          /\ length (answer gradient epsilon x0 i 1) = length x0
          /\ length (answer gradient epsilon x0 i 2) = length x0
          /\ length (answer gradient epsilon x0 i 3) = length x0) as Hws.
  { unfold well_sized. split.
    - intros Hj. repeat split; apply Hj; lia.
    - intros (? & ? & ? & ?) [|[|[|[|j]]]] Hj; (done || lia). }
  rewrite Hws. clear Hws.
  unfold column, answer. rewrite (probes_Some _ _ _ _ Hxi).
  cbn [offsets fmap list_fmap lookup list_lookup].
  rewrite Nat.add_0_r.
  set (p1 := <[i := sadd xi (smul (lit 2) epsilon)]> x0).
  set (p2 := <[i := sadd xi (smul (lit (-2)) epsilon)]> x0).
  set (p3 := <[i := sadd xi epsilon]> x0).
  set (p4 := <[i := ssub xi epsilon]> x0).
  set (g1 := (gradient (4 * i) p1).2).
  set (g2 := (gradient (4 * i + 1) p2).2).
  set (g3 := (gradient (4 * i + 2) p3).2).
  set (g4 := (gradient (4 * i + 3) p4).2).
  unfold body, mbind, prog_bind, get. frame_cbn.
  (* first probe *)
  rewrite (run_check _ _ _ _ _ _ Hxi).
  rewrite run_store by done. frame_cbn. fold p1.
  rewrite run_call_gradient. frame_cbn. rewrite Hlog. fold g1.
  (* second probe *)
  rewrite (run_check _ _ _ _ _ _ Hxi).
  rewrite run_store by (frame_cbn; unfold p1; rewrite length_insert; lia).
  frame_cbn.
  replace (<[i := sadd xi (smul (lit (-2)) epsilon)]> p1) with p2
    by (unfold p1, p2; by rewrite list_insert_insert_eq).
  rewrite run_call_gradient. frame_cbn.
  rewrite calls_snoc_gradient, Hlog. fold g2.
  destruct (decide (length g1 = length g2)) as [E12|E12]; cycle 1.
  { right. split; [intros (? & ? & ? & ?); congruence|].
    erewrite run_check_None; [done|].
    apply vadd_None. unfold vneg. by rewrite length_fmap. }
  erewrite run_check; cycle 1.
  { apply vadd_Some. unfold vneg. by rewrite length_fmap. }
  (* third probe *)
  rewrite (run_check _ _ _ _ _ _ Hxi).
  rewrite run_store by (frame_cbn; unfold p2; rewrite length_insert; lia).
  frame_cbn.
  replace (<[i := sadd xi epsilon]> p2) with p3
    by (unfold p2, p3; by rewrite list_insert_insert_eq).
  rewrite run_call_gradient. frame_cbn.
  rewrite !calls_snoc_gradient, Hlog.
  rewrite <- ?Nat.add_assoc. cbn [Nat.add]. fold g3.
  destruct (decide (length g2 = length g3)) as [E23|E23]; cycle 1.
  { right. split; [intros (? & ? & ? & ?); congruence|].
    erewrite run_check_None; [done|].
    apply vadd_None. unfold vneg, vscale.
    rewrite length_zip_with, !length_fmap. lia. }
  erewrite run_check; cycle 1.
  { apply vadd_Some. unfold vneg, vscale.
    rewrite length_zip_with, !length_fmap. lia. }
  (* fourth probe *)
  rewrite (run_check _ _ _ _ _ _ Hxi).
  rewrite run_store by (frame_cbn; unfold p3; rewrite length_insert; lia).
  frame_cbn.
  replace (<[i := ssub xi epsilon]> p3) with p4
    by (unfold p3, p4; by rewrite list_insert_insert_eq).
  rewrite run_call_gradient. frame_cbn.
  rewrite !calls_snoc_gradient, Hlog.
  rewrite <- ?Nat.add_assoc. cbn [Nat.add]. fold g4.
  destruct (decide (length g3 = length g4)) as [E34|E34]; cycle 1.
  { right. split; [intros (? & ? & ? & ?); congruence|].
    erewrite run_check_None; [done|].
    apply vsub_None. unfold vneg, vscale.
    rewrite !length_zip_with, !length_fmap. lia. }
  erewrite run_check; cycle 1.
  { apply vsub_Some. unfold vneg, vscale.
    rewrite !length_zip_with, !length_fmap. lia. }
  (* restore and store the column *)
  rewrite (run_check _ _ _ _ _ _ Hxi).
  rewrite run_store by (frame_cbn; unfold p4; rewrite length_insert; lia).
  frame_cbn.
  replace (<[i := xi]> p4) with x0
    by (unfold p4; rewrite list_insert_insert_eq; by rewrite list_insert_id).
  destruct (decide (length g4 = length x0)) as [E4|E4]; cycle 1.
  { right. split; [intros (? & ? & ? & ?); congruence|].
    erewrite run_check_None; [done|].
    apply assign_col_None. unfold vquot, vneg, vscale.
    rewrite length_fmap, !length_zip_with, !length_fmap. lia. }
  left. split; [repeat split; congruence|].
  erewrite run_check; cycle 1.
  { apply assign_col_Some; [lia|].
    unfold vquot, vneg, vscale.
    rewrite length_fmap, !length_zip_with, !length_fmap. lia. }
  cbn [run]. frame_cbn. rewrite Hr, Hc.
  rewrite <- !(assoc_L (++)). cbn [app].
  eexists _, _. reflexivity.
Qed.
Lemma run_columns_cases epsilon junk (x0 : list K) fx0 hess0 n :
  n <= length x0 ->
  ((forall i, i < n -> well_sized gradient epsilon x0 i)
   /\ exists s,
        run gradient f (columns epsilon n (enter junk x0 fx0 hess0)) []
          = (Some s, probe_log epsilon x0 n)
        /\ x s = x0 /\ x_temp s = x0
        /\ rows (hess_fx s) = length x0
        /\ cols (hess_fx s) = length x0)
  \/ (~ (forall i, i < n -> well_sized gradient epsilon x0 i)
      /\ (run gradient f (columns epsilon n (enter junk x0 fx0 hess0)) []).1
           = None).
Proof.
  unfold columns. cbn [enter x].
  induction n as [|n IH]; intros Hn.
  - left. split; [intros i Hi; lia|].
    eexists. split; [reflexivity|]. cbn.
    by rewrite resize_rows, resize_cols.
  - replace (Datatypes.S n) with (n + 1) by lia.
    rewrite run_for_loop_snoc.
    destruct IH as [(Hws & s & Hrun & Hx & Hxt & Hr & Hc)|(Hws & Hrun)];
      [lia| |].
    + rewrite Hrun. cbn [Nat.add].
      destruct (run_body_cases epsilon n s (probe_log epsilon x0 n))
        as [(Hn' & v & g & Hbody)|(Hn' & Hbody)]; rewrite ?Hx; auto;
        try lia.
      { apply calls_probe_log. lia. }
      * left. rewrite Hx in Hn', Hbody. split.
        { intros i Hi. destruct (decide (i = n)) as [->|]; [done|].
          apply Hws. lia. }
        rewrite Hbody, <- probe_log_snoc. eexists. split; [reflexivity|].
        by cbn.
      * right. rewrite Hx in Hn', Hbody. split; [|done].
        intros Hall. apply Hn', Hall. lia.
    + right. split.
      * intros Hall. apply Hws. intros i Hi. apply Hall. lia.
      * destruct (run gradient f _ []) as [[s|] log]; [done|done].
Qed.

(** X5. With Eigen's size assertions, the call returns exactly when
    every gradient the oracle returned to it has the length of the point:
    a gradient of another length, at any of the [4 d] calls, stops the
    call; it is never cut or padded to fit. *)
Theorem run_returns_iff_gradients_fit junk (x0 : list K) fx0 hess0 epsilon :
  is_Some
    (run gradient f (finite_diff_hessian_AD junk x0 fx0 hess0 epsilon) []).1
  <-> forall i j, i < length x0 -> j < 4 ->
        length (answer gradient epsilon x0 i j) = length x0.
Proof.
  unfold finite_diff_hessian_AD, mbind, prog_bind. rewrite run_bind.
  destruct (run_columns_cases epsilon junk x0 fx0 hess0 (length x0))
    as [(Hws & s & Hrun & _)|(Hws & Hrun)]; [done| |].
  - rewrite Hrun. cbn [bind run fst]. split; [|by eauto].
    intros _ i j Hi Hj. by apply Hws.
  - destruct (run gradient f _ []) as [[s|] log]; [done|].
    cbn [fst]. split; [by intros [? [=]]|].
    intros Hall. destruct Hws. intros i Hi j Hj. by apply Hall.
Qed.
End WrongLength.

Section RealLinearity.
Local Open Scope R_scope.



End RealLinearity.

Section QuadraticGeneralFacts.
Local Open Scope R_scope.

Lemma derivable_times_col A (p : list R) k c :
  (k < length p)%nat ->
  derivable_pt_lim (fun t => times_col A (<[k := t]> p) c) (coord p k)
    (sum_below (rows A) (fun r => indicator r k * entry A r c)).
Proof.
  intros Hk. unfold times_col.
  apply (derivable_sum_below (rows A)
           (fun r t => coord (<[k := t]> p) r * entry A r c)).
  intros r _.
  apply (derivable_pt_lim_ext
           (fun t => entry A r c * coord (<[k := t]> p) r)).
  { intros t. lra. }
  replace (indicator r k * entry A r c) with (entry A r c * indicator r k)
    by lra.
  apply (derivable_pt_lim_scal (fun t => coord (<[k := t]> p) r)).
  by apply derivable_coord.
Qed.

Lemma times_col_insert A (p : list R) c k v :
  (k < length p)%nat -> (k < rows A)%nat ->
  times_col A (<[k := v]> p) c
    = times_col A p c + (v - coord p k) * entry A k c.
Proof.
  intros Hk Hr. unfold times_col.
  rewrite <- (sum_below_indicator_l (rows A) k
                (fun r => (v - coord p r) * entry A r c) Hr).
  rewrite <- sum_below_plus. apply sum_below_ext. intros r _.
  rewrite coord_insert by done. unfold indicator. case_decide; lra.
Qed.

(** The gradient of [p^T A p] for a square [A] is [A p + A^T p]. *)
Lemma quadratic_form_partial_square A (p : list R) k :
  cols A = rows A -> length p = rows A -> (k < rows A)%nat ->
  partial_derivative (quadratic_form A) p k
    (row_times A k p + times_col A p k).
Proof.
  intros Hc Hp Hk.
  unfold partial_derivative, quadratic_form.
  assert (k < length p)%nat as Hkp by lia.
  replace (row_times A k p + times_col A p k) with
    (sum_below (rows A)
       (fun r => indicator r k * row_times A r (<[k := coord p k]> p)
                 + coord (<[k := coord p k]> p) r
                   * sum_below (cols A)
                       (fun c => entry A r c * indicator c k))).
  - apply (derivable_sum_below (rows A)
             (fun r t => coord (<[k := t]> p) r
                         * row_times A r (<[k := t]> p))).
    intros r _.
    apply (derivable_pt_lim_mult
             (fun t => coord (<[k := t]> p) r)
             (fun t => row_times A r (<[k := t]> p))).
    + by apply derivable_coord.
    + by apply derivable_row_times.
  - rewrite insert_coord by done.
    rewrite sum_below_plus, sum_below_indicator_l by done.
    f_equal. unfold times_col.
    apply sum_below_ext. intros r Hr.
    rewrite sum_below_indicator_r by lia. done.
Qed.

Lemma exact_gradient_square A f gradient n (p : list R) k :
  cols A = rows A ->
  (forall q, length q = rows A -> f q = quadratic_form A q) ->
  exact_gradient f (rows A) gradient ->
  length p = rows A -> (k < rows A)%nat ->
  (gradient n p).2 !! k = Some (row_times A k p + times_col A p k).
Proof.
  intros Hc Hf Hex Hp Hk.
  destruct (Hex n p Hp) as [Hlen Hpart].
  rewrite lookup_coord by lia. f_equal.
  apply (uniqueness_limite (fun t => f (<[k := t]> p)) (coord p k)).
  - by apply Hpart.
  - apply (derivable_pt_lim_ext
             (fun t => quadratic_form A (<[k := t]> p))).
    + intros t. symmetry. apply Hf. by rewrite length_insert.
    + by apply quadratic_form_partial_square.
Qed.

(** X7. Over the reals, for a square [A] that need not be symmetric, a
    function that is [p^T A p] on the points of the length of [x0], an
    oracle that returns its partial derivatives and a step other than 0
    (positive or negative): coefficient [(r, c)] of the result is
    [A(r, c) + A(c, r)], the matrix [A + A^T]. *)
Theorem hessian_of_any_quadratic_form A f gradient junk (x0 : list R) fx0
    hess0 epsilon :
  cols A = rows A ->
  length x0 = rows A ->
  (forall p, length p = rows A -> f p = quadratic_form A p) ->
  exact_gradient f (rows A) gradient ->
  epsilon <> 0 ->
  exists s,
    (run gradient f (finite_diff_hessian_AD junk x0 fx0 hess0 epsilon) []).1
      = Some s
    /\ forall r c, (r < rows A)%nat -> (c < rows A)%nat ->
         coeff (hess_fx s) r c = Some (entry A r c + entry A c r).
Proof.
  intros HcA Hx0 Hf Hex He.
  assert (sized gradient (length x0)) as Hsz.
  { intros n p Hp. rewrite Hx0 in *. by apply Hex. }
  destruct (run_finite_diff_hessian_AD gradient f junk x0 fx0 hess0 epsilon
              Hsz) as (s & Hrun & _ & _ & _ & Hr & Hc & _ & Hcols).
  exists s. rewrite Hrun. split; [done|].
  intros k j Hk Hj.
  assert (j < length x0)%nat as Hjx by lia.
  destruct (lookup_lt_is_Some_2 _ _ Hjx) as [xj Hxj].
  unfold coeff. rewrite decide_True by lia.
  rewrite <- lookup_col by lia. rewrite Hcols by done.
  unfold column, answer. rewrite (probes_Some _ _ _ _ Hxj).
  cbn [offsets fmap list_fmap lookup list_lookup].
  erewrite lookup_combine; cycle 1.
  1-4: apply (exact_gradient_square A f); auto;
       rewrite length_insert; lia.
  f_equal.
  rewrite !row_times_insert, !times_col_insert by lia.
  rewrite (coord_lookup _ _ _ Hxj).
  transitivity (2 * ((entry A k j + entry A j k) / 2)); [|lra].
  rewrite <- (stencil_linear epsilon
                ((row_times A k x0 + times_col A x0 k) / 2)
                ((entry A k j + entry A j k) / 2) xj He).
  f_equal; cbn [sadd ssub smul lit R_scalar]; lra.
Qed.
End QuadraticGeneralFacts.

(** ** The whole of [gaussian_dlm_log] *)

Section WholeFunctionFacts.
Context {K : Type} `{Scalar K} {vstore store : Type}.
Variable write_m : vstore -> Z -> K -> option vstore.
Variable write : store -> Z -> Z -> K -> option store.
Variable check_size_match : Z -> Z -> K -> verdict K.
Variable check_symmetric : matrix K -> K -> verdict K.
Variables include_constant include_terms : bool.
Variable NEG_LOG_SQRT_TWO_PI : K.
Variable predict : vstore -> store -> K -> ending K.
Variables y_rows y_cols F_rows F_cols G_rows G_cols : Z.
Variables V W : matrix K.

Local Abbreviation dlm_log :=
  (gaussian_dlm_log write_m write check_size_match check_symmetric
     include_constant include_terms NEG_LOG_SQRT_TWO_PI predict
     y_rows y_cols F_rows F_cols G_rows G_cols V W).
Local Abbreviation dlm_density :=
  (density write_m write include_constant include_terms
     NEG_LOG_SQRT_TWO_PI predict y_rows y_cols).
Local Abbreviation dlm_checks :=
  (checks check_size_match check_symmetric
     y_rows F_rows F_cols G_rows G_cols V W).

Lemma gaussian_dlm_log_checks fuel m0 C0 :
  dlm_log fuel m0 C0 =
    guard dlm_checks (fun lp => dlm_density fuel m0 C0 lp).
Proof.
  unfold gaussian_dlm_log, checks, guard.
  repeat match goal with
         | |- context [match ?v with Pass _ => _ | _ => _ end] =>
             destruct v; try reflexivity
         end.
Qed.

Lemma fill_C_outer_not_finished fuel (C0 C : store) :
  (1 <= y_rows)%Z -> (1 <= y_cols)%Z ->
  fill_C write y_rows y_cols fuel (Outer 0) C0 <> Finished C.
Proof.
  intros Hr Hc. destruct fuel as [|fuel]; simpl; [done|].
  rewrite (outer_guard_holds y_rows Hr).
  by apply fill_C_inner.
Qed.

Lemma fill_C_outer_total fuel (C0 : store) :
  (1 <= y_rows)%Z -> (1 <= y_cols)%Z ->
  (forall C i j v, is_Some (write C i j v)) ->
  fill_C write y_rows y_cols fuel (Outer 0) C0 = OutOfFuel.
Proof.
  intros Hr Hc Hw. destruct fuel as [|fuel]; simpl; [done|].
  rewrite (outer_guard_holds y_rows Hr).
  by apply fill_C_inner_total.
Qed.

Lemma zero_m_total fuel i (m : vstore) :
  (forall m i v, is_Some (write_m m i v)) ->
  zero_m write_m y_rows y_cols fuel i m <> AssertionFailed.
Proof.
  intros Hw. revert i m.
  induction fuel as [|fuel IH]; intros i m; simpl;
    destruct (i <? y_rows * y_cols)%Z; try done.
  destruct (Hw m i (lit 0)) as [m' ->]. apply IH.
Qed.

Lemma terms_never_return fuel m0 C0 lp :
  (1 <= y_rows)%Z -> (1 <= y_cols)%Z ->
  terms write_m write predict y_rows y_cols fuel m0 C0 lp = Stopped
  \/ terms write_m write predict y_rows y_cols fuel m0 C0 lp = Unfinished.
Proof.
  intros Hr Hc. unfold terms.
  destruct (zero_m _ _ _ _ _ _) as [m| |]; auto.
  destruct (fill_C _ _ _ _ _ _) as [C| |] eqn:HC; auto.
  by apply fill_C_outer_not_finished in HC.
Qed.

Lemma density_nonempty fuel m0 C0 lp :
  (1 <= y_rows)%Z -> (1 <= y_cols)%Z ->
  dlm_density fuel m0 C0 lp =
    let lp' :=
      if include_constant
      then sadd lp (smul (smul NEG_LOG_SQRT_TWO_PI (lit (wrap32 y_rows)))
                      (lit (wrap32 y_cols)))
      else lp in
    if include_terms
    then terms write_m write predict y_rows y_cols fuel m0 C0 lp'
    else Returned lp'.
Proof.
  intros Hr Hc. unfold density.
  replace (y_cols =? 0)%Z with false by (symmetry; apply Z.eqb_neq; lia).
  replace (y_rows =? 0)%Z with false by (symmetry; apply Z.eqb_neq; lia).
  done.
Qed.

(** X8. When the checks pass, [y] has a row and a column and the terms
    that depend on the arguments are included, a call of
    [gaussian_dlm_log] never returns a value and never throws: within any
    bound it has either stopped in an assertion of a coefficient access
    or is still running, whatever the code after the loop nest is; and
    when the coefficient accesses never fail it is still running at every
    bound. *)
Theorem gaussian_dlm_log_never_returns lp0 :
  checks check_size_match check_symmetric
    y_rows F_rows F_cols G_rows G_cols V W = Pass lp0 ->
  (1 <= y_rows)%Z -> (1 <= y_cols)%Z ->
  include_terms = true ->
  (forall fuel m0 C0,
     gaussian_dlm_log write_m write check_size_match check_symmetric
       include_constant include_terms NEG_LOG_SQRT_TWO_PI predict
       y_rows y_cols F_rows F_cols G_rows G_cols V W fuel m0 C0 = Stopped
     \/ gaussian_dlm_log write_m write check_size_match check_symmetric
          include_constant include_terms NEG_LOG_SQRT_TWO_PI predict
          y_rows y_cols F_rows F_cols G_rows G_cols V W fuel m0 C0
        = Unfinished)
  /\ ((forall m i v, is_Some (write_m m i v)) ->
      (forall C i j v, is_Some (write C i j v)) ->
      forall fuel m0 C0,
        gaussian_dlm_log write_m write check_size_match check_symmetric
          include_constant include_terms NEG_LOG_SQRT_TWO_PI predict
          y_rows y_cols F_rows F_cols G_rows G_cols V W fuel m0 C0
        = Unfinished).
Proof.
  intros Hchk Hr Hc Hterms. split.
  - intros fuel m0 C0.
    rewrite gaussian_dlm_log_checks, Hchk. cbn [guard].
    rewrite density_nonempty by done. cbn zeta. rewrite Hterms.
    by apply terms_never_return.
  - intros Hwm Hw fuel m0 C0.
    rewrite gaussian_dlm_log_checks, Hchk. cbn [guard].
    rewrite density_nonempty by done. cbn zeta. rewrite Hterms.
    unfold terms.
    destruct (zero_m _ _ _ _ _ _) as [m| |] eqn:Hm; [|exfalso|done].
    + by rewrite fill_C_outer_total.
    + by apply zero_m_total in Hm.
Qed.

(** X9. The values [gaussian_dlm_log] can return, for sizes of [y] that
    are not negative: it returns [lp] exactly when a check rejected and
    left [lp]; or the checks passed and [y] has no row or no column, and
    [lp] is what the checks left (the constant is not added); or the
    checks passed, [y] has a row and a column, the terms are not included,
    and [lp] is what the checks left, plus
    [NEG_LOG_SQRT_TWO_PI * r * T] when the constant is included.  The
    returned value depends on the arguments only through the checks and
    the sizes of [y], and never on the bound or on the code after the
    loop nest. *)
Theorem gaussian_dlm_log_returned_value fuel m0 C0 lp :
  (0 <= y_rows)%Z -> (0 <= y_cols)%Z ->
  gaussian_dlm_log write_m write check_size_match check_symmetric
    include_constant include_terms NEG_LOG_SQRT_TWO_PI predict
    y_rows y_cols F_rows F_cols G_rows G_cols V W fuel m0 C0 = Returned lp
  <-> checks check_size_match check_symmetric
        y_rows F_rows F_cols G_rows G_cols V W = Reject lp
      \/ exists lp0,
           checks check_size_match check_symmetric
             y_rows F_rows F_cols G_rows G_cols V W = Pass lp0
           /\ (((y_rows = 0 \/ y_cols = 0)%Z /\ lp = lp0)
               \/ ((1 <= y_rows)%Z /\ (1 <= y_cols)%Z
                   /\ include_terms = false
                   /\ lp = if include_constant
                           then sadd lp0
                                  (smul (smul NEG_LOG_SQRT_TWO_PI
                                           (lit (wrap32 y_rows)))
                                     (lit (wrap32 y_cols)))
                           else lp0)).
Proof.
  intros Hr Hc. rewrite gaussian_dlm_log_checks.
  destruct dlm_checks as [lp0|lp0|] eqn:Hchk; cbn [guard].
  - destruct (decide (y_rows = 0 \/ y_cols = 0)%Z) as [Hempty|Hne].
    + unfold density.
      replace ((y_cols =? 0) || (y_rows =? 0))%Z with true
        by (symmetry; apply orb_true_iff; rewrite !Z.eqb_eq; tauto).
      split.
      * intros [= <-]. right. exists lp0. auto.
      * intros [[=]|(lp1 & [= <-] & [[_ ->]|(? & ? & _)])]; [done|lia].
    + assert (1 <= y_rows)%Z as Hr1 by lia.
      assert (1 <= y_cols)%Z as Hc1 by lia.
      rewrite density_nonempty by done. cbn zeta.
      destruct include_terms.
      * split.
        -- intros Hret.
           destruct (terms_never_return fuel m0 C0
                       (if include_constant
                        then sadd lp0
                               (smul (smul NEG_LOG_SQRT_TWO_PI
                                        (lit (wrap32 y_rows)))
                                  (lit (wrap32 y_cols)))
                        else lp0) Hr1 Hc1) as [Hs|Hs];
             rewrite Hs in Hret; discriminate.
        -- intros [[=]|(lp1 & [= <-] & [[? _]|(_ & _ & [=] & _)])]. tauto.
      * split.
        -- intros [= <-]. right. exists lp0. split; [done|]. right. auto.
        -- intros [[=]|(lp1 & [= <-] & [[? _]|(_ & _ & _ & ->)])];
             [tauto|done].
  - split.
    + intros [= <-]. by left.
    + intros [[= <-]|(lp1 & [=] & _)]. done.
  - split; [done|].
    intros [[=]|(lp1 & [=] & _)].
Qed.
End WholeFunctionFacts.

Section CheckedAccess.
Context {K : Type} `{Scalar K}.

Lemma wrap32_small (z : Z) : (0 <= z < 2 ^ 31)%Z -> wrap32 z = z.
Proof.
  intros Hz. unfold wrap32.
  rewrite Z.mod_small by lia. lia.
Qed.

Lemma write_m_checked_Some (m : list K) (k : nat) v :
  k < length m ->
  write_m_checked m (Z.of_nat k) v = Some (<[k := v]> m).
Proof.
  intros Hk. unfold write_m_checked.
  rewrite decide_True by lia. by rewrite Nat2Z.id.
Qed.

Lemma write_m_checked_None (m : list K) (i : Z) v :
  (Z.of_nat (length m) <= i)%Z -> write_m_checked m i v = None.
Proof. intros Hi. unfold write_m_checked. rewrite decide_False; [done|lia]. Qed.

(** The loop from [i = k], on a vector that is long enough. *)
Lemma zero_m_checked_fits y_rows y_cols fuel (k size : nat) (m : list K) :
  (y_rows * y_cols)%Z = Z.of_nat size ->
  (Z.of_nat size < 2 ^ 31)%Z ->
  k <= size -> size <= length m -> size - k <= fuel ->
  zero_m write_m_checked y_rows y_cols fuel (Z.of_nat k) m
    = Finished (take k m ++ replicate (size - k) (lit 0) ++ drop size m).
Proof.
  intros Hsize Hint. revert k m.
  induction fuel as [|fuel IH]; intros k m Hk Hm Hfuel.
  - assert (k = size) as -> by lia. simpl.
    rewrite Hsize, Z.ltb_irrefl, Nat.sub_diag. simpl.
    by rewrite take_drop.
  - simpl. rewrite Hsize.
    destruct (decide (k = size)) as [->|Hne].
    + rewrite Z.ltb_irrefl, Nat.sub_diag. simpl. by rewrite take_drop.
    + replace (Z.of_nat k <? Z.of_nat size)%Z with true
        by (symmetry; apply Z.ltb_lt; lia).
      rewrite write_m_checked_Some by lia.
      rewrite wrap32_small by lia.
      replace (Z.of_nat k + 1)%Z with (Z.of_nat (k + 1)) by lia.
      rewrite IH by (rewrite ?length_insert; lia).
      f_equal.
      replace (k + 1) with (Datatypes.S k) by lia.
      erewrite take_S_r by (apply list_lookup_insert_eq; lia).
      rewrite take_insert_ge by lia.
      rewrite drop_insert_lt by lia.
      replace (size - k) with (Datatypes.S (size - Datatypes.S k)) by lia.
      simpl. by rewrite <- (assoc_L (++)).
Qed.

(** The loop from [i = k], on a vector that is too short. *)
Lemma zero_m_checked_overruns y_rows y_cols fuel (k size : nat)
    (m : list K) :
  (y_rows * y_cols)%Z = Z.of_nat size ->
  (Z.of_nat size < 2 ^ 31)%Z ->
  k <= length m -> length m < size -> length m - k < fuel ->
  zero_m write_m_checked y_rows y_cols fuel (Z.of_nat k) m
    = AssertionFailed.
Proof.
  intros Hsize Hint. revert k m.
  induction fuel as [|fuel IH]; intros k m Hk Hm Hfuel; [lia|].
  simpl. rewrite Hsize.
  replace (Z.of_nat k <? Z.of_nat size)%Z with true
    by (symmetry; apply Z.ltb_lt; lia).
  destruct (decide (k = length m)) as [->|Hne].
  - by rewrite write_m_checked_None.
  - rewrite write_m_checked_Some by lia.
    rewrite wrap32_small by lia.
    replace (Z.of_nat k + 1)%Z with (Z.of_nat (k + 1)) by lia.
    apply IH; rewrite ?length_insert; lia.
Qed.

Lemma zero_m_runs_to_the_size_of_y_aux y_rows y_cols fuel (size : nat)
    (m0 : list K) :
  (y_rows * y_cols)%Z = Z.of_nat size ->
  (Z.of_nat size < 2 ^ 31)%Z ->
  size <= fuel ->
  zero_m write_m_checked y_rows y_cols fuel 0 m0
    = if decide (size <= length m0)
      then Finished (replicate size (lit 0) ++ drop size m0)
      else AssertionFailed.
Proof.
  intros Hsize Hint Hfuel. case_decide as Hfit.
  - assert (0 <= size) as H0 by lia.
    assert (size - 0 <= fuel) as Hf by lia.
    pose proof (zero_m_checked_fits y_rows y_cols fuel 0 size m0
                  Hsize Hint H0 Hfit Hf) as Hz.
    rewrite Nat.sub_0_r in Hz. exact Hz.
  - assert (0 <= length m0) as H0 by lia.
    assert (length m0 < size) as Hm by lia.
    assert (length m0 - 0 < fuel) as Hf by lia.
    exact (zero_m_checked_overruns y_rows y_cols fuel 0 size m0
             Hsize Hint H0 Hm Hf).
Qed.

(** X10. The loop that zeroes [m] runs over the [y.size()] coefficients
    of [y], not over those of [m]: with the range assertion, on a vector
    [m0] and for fewer than [2^31] coefficients of [y], it ends with the
    first [y.size()] coefficients 0 and the others as they were when [m0]
    is long enough, and stops in the assertion when [m0] is shorter. *)
Theorem zero_m_runs_to_the_size_of_y y_rows y_cols fuel (size : nat)
    (m0 : list K) :
  (y_rows * y_cols)%Z = Z.of_nat size ->
  (Z.of_nat size < 2 ^ 31)%Z ->
  size <= fuel ->
  zero_m write_m_checked y_rows y_cols fuel 0 m0
    = if decide (size <= length m0)
      then Finished (replicate size (lit 0) ++ drop size m0)
      else AssertionFailed.
Proof. apply zero_m_runs_to_the_size_of_y_aux. Qed.

Lemma write_checked_Some (C : matrix K) (k : nat) v :
  k < rows C -> 0 < cols C ->
  exists C',
    write_checked C (Z.of_nat k) 0 v = Some C'
    /\ rows C' = rows C /\ cols C' = cols C.
Proof.
  intros Hk Hc. unfold write_checked.
  rewrite decide_True by lia. eexists. split; [reflexivity|done].
Qed.

Lemma write_checked_None (C : matrix K) (i j : Z) v :
  (Z.of_nat (rows C) <= i)%Z -> write_checked C i j v = None.
Proof. intros Hi. unfold write_checked. rewrite decide_False; [done|lia]. Qed.

(** The inner loop from [i = k], [j = 0], on an [n] by [n] matrix. *)
Lemma fill_C_checked_inner y_rows y_cols fuel (n k : nat) (C : matrix K) :
  (1 <= y_cols)%Z ->
  (Z.of_nat n < 2 ^ 31)%Z ->
  rows C = n -> cols C = n ->
  k <= n -> n - k + 1 < fuel ->
  fill_C write_checked y_rows y_cols fuel (Inner (Z.of_nat k) 0) C
    = AssertionFailed.
Proof.
  intros Hc Hint. revert k C.
  induction fuel as [|fuel IH]; intros k C Hrows Hcols Hk Hfuel; [lia|].
  simpl. rewrite (inner_guard_holds y_cols Hc).
  destruct (decide (k = n)) as [->|Hne].
  - rewrite write_checked_None by lia. destruct fuel; [lia|done].
  - destruct (write_checked_Some C k
                (if (Z.of_nat k =? 0)%Z then lit 1 else lit 0))
      as (C' & -> & Hr' & Hc'); [lia..|].
    rewrite wrap32_small by lia.
    replace (Z.of_nat k + 1)%Z with (Z.of_nat (k + 1)) by lia.
    apply IH; lia.
Qed.
End CheckedAccess.

(** X11. With the range assertions on [m(i)] and [C(i, j)], a vector
    [m0] and an [n] by [n] matrix [C0]: when the checks pass, [y] has a
    row and a column and the terms are included, every call with a bound
    above [y.size() + n + 2] has stopped in an assertion, in the loop over
    [m] or at [C(n, 0)]. *)
Theorem gaussian_dlm_log_checked_stops {K : Type} `{Scalar K}
    (check_size_match : Z -> Z -> K -> verdict K)
    (check_symmetric : matrix K -> K -> verdict K)
    (include_constant : bool) (NEG_LOG_SQRT_TWO_PI : K)
    (predict : list K -> matrix K -> K -> ending K)
    (y_rows y_cols F_rows F_cols G_rows G_cols : Z) (V W : matrix K)
    (lp0 : K) (size n : nat) (fuel : nat) (m0 : list K) (C0 : matrix K) :
  checks check_size_match check_symmetric
    y_rows F_rows F_cols G_rows G_cols V W = Pass lp0 ->
  (1 <= y_rows)%Z -> (1 <= y_cols)%Z ->
  (y_rows * y_cols)%Z = Z.of_nat size ->
  (Z.of_nat size < 2 ^ 31)%Z ->
  length m0 = n -> rows C0 = n -> cols C0 = n ->
  (Z.of_nat n < 2 ^ 31)%Z ->
  size + n + 2 < fuel ->
  gaussian_dlm_log write_m_checked write_checked
    check_size_match check_symmetric include_constant true
    NEG_LOG_SQRT_TWO_PI predict
    y_rows y_cols F_rows F_cols G_rows G_cols V W fuel m0 C0
  = Stopped.
Proof.
  intros Hchk Hr Hc Hsize Hint Hm HrC HcC Hn Hfuel.
  rewrite gaussian_dlm_log_checks, Hchk. cbn [guard].
  rewrite density_nonempty by done. cbn zeta. unfold terms.
  rewrite (zero_m_runs_to_the_size_of_y_aux y_rows y_cols fuel size m0)
    by (done || lia).
  case_decide; [|done].
  destruct fuel as [|fuel]; [lia|]. simpl.
  rewrite (outer_guard_holds y_rows Hr).
  rewrite (fill_C_checked_inner y_rows y_cols fuel n 0 C0); (done || lia).
Qed.

Section ColumnZero.
Context {K : Type} `{Scalar K}.

Lemma write_checked_column_0 (C : matrix K) (j : nat) v :
  j < rows C -> 0 < cols C ->
  write_checked C (Z.of_nat j) 0 v
    = Some (Matrix (rows C) (cols C) (<[j := v]> (coeffs C))).
Proof.
  intros Hj Hc. unfold write_checked.
  rewrite decide_True by lia.
  replace (Z.of_nat j + 0 * Z.of_nat (rows C))%Z with (Z.of_nat j) by lia.
  by rewrite Nat2Z.id.
Qed.

Lemma steps_checked_inner y_rows y_cols (n m j : nat) (c : list K) :
  (1 <= y_cols)%Z ->
  (Z.of_nat n < 2 ^ 31)%Z ->
  n <= length c ->
  j + m <= n ->
  steps write_checked y_rows y_cols m (Inner (Z.of_nat j) 0) (Matrix n n c)
    = (Inner (Z.of_nat (j + m)) 0,
       Matrix n n
         (take j c
            ++ ((fun i => if (Z.of_nat i =? 0)%Z then lit 1 else lit 0)
                  <$> seq j m)
            ++ drop (j + m) c)).
Proof.
  intros Hc Hint. revert j c.
  induction m as [|m IH]; intros j c Hlen Hjm.
  - simpl. by rewrite Nat.add_0_r, take_drop.
  - simpl. rewrite (inner_guard_holds y_cols Hc).
    rewrite write_checked_column_0 by (simpl; lia). cbn [rows cols coeffs].
    rewrite wrap32_small by lia.
    replace (Z.of_nat j + 1)%Z with (Z.of_nat (Datatypes.S j)) by lia.
    rewrite IH by (rewrite ?length_insert; lia).
    replace (Datatypes.S j + m) with (j + Datatypes.S m) by lia.
    f_equal. f_equal.
    erewrite take_S_r by (apply list_lookup_insert_eq; lia).
    rewrite take_insert_ge by lia.
    rewrite drop_insert_lt by lia.
    by rewrite <- (assoc_L (++)).
Qed.

(** X12. With the range assertion, on an [n] by [n] matrix, the loop
    nest writes column 0 only: after [k + 1] tests ([k] at most [n]),
    control is in the inner loop with [i = k] and [j = 0], the first [k]
    coefficients of column 0 are [1, 0, ..., 0] and every other
    coefficient of [C] is as it was. *)
Theorem fill_C_writes_only_column_0 y_rows y_cols (n k : nat) (c : list K) :
  (1 <= y_rows)%Z -> (1 <= y_cols)%Z ->
  (Z.of_nat n < 2 ^ 31)%Z ->
  length c = n * n ->
  k <= n ->
  steps write_checked y_rows y_cols (Datatypes.S k) (Outer 0) (Matrix n n c)
    = (Inner (Z.of_nat k) 0,
       Matrix n n
         (((fun i => if (Z.of_nat i =? 0)%Z then lit 1 else lit 0)
             <$> seq 0 k)
            ++ drop k c)).
Proof.
  intros Hr Hc Hint Hlen Hk. simpl.
  rewrite (outer_guard_holds y_rows Hr).
  assert (n <= length c) as Hn by nia.
  exact (steps_checked_inner y_rows y_cols n k 0 c Hc Hint Hn Hk).
Qed.
End ColumnZero.

(** ** The further properties at concrete inputs *)

Section RationalInstances.
Local Open Scope Q_scope.

(** An oracle that differs from the scenario's in its first four calls. *)
Lemma column_depends_on_its_own_calls_witness :
  exists s1 s2 : frame Q,
    (run scenario_gradient scenario_f
       (finite_diff_hessian_AD (fun _ => 0) [1; 2] 0 (Matrix 0 0 [])
          (1 # 1000)) []).1 = Some s1
    /\ (run (fun n p => if (n <? 4)%nat
                        then (0, [7; 7])
                        else scenario_gradient n p)
          scenario_f
          (finite_diff_hessian_AD (fun _ => 0) [1; 2] 0 (Matrix 0 0 [])
             (1 # 1000)) []).1 = Some s2
    /\ col 1 (hess_fx s1) = col 1 (hess_fx s2).
Proof.
  apply (column_depends_on_its_own_calls scenario_gradient
           (fun n p => if (n <? 4)%nat then (0, [7; 7])
                       else scenario_gradient n p)
           scenario_f (fun _ => 0) [1; 2] 0 (Matrix 0 0 []) (1 # 1000) 1).
  - apply scenario_gradient_sized.
  - intros n p Hp. destruct (n <? 4)%nat; [done|].
    by apply scenario_gradient_sized.
  - simpl. lia.
  - intros j p Hj. reflexivity.
Defined.

Lemma outputs_are_fully_overwritten_witness :
  exists s s' : frame Q,
    (run scenario_gradient scenario_f
       (finite_diff_hessian_AD (fun _ => 0) [1; 2] 0 (Matrix 0 0 [])
          (1 # 1000)) []).1 = Some s
    /\ (run scenario_gradient scenario_f
          (finite_diff_hessian_AD (fun _ => 5) [1; 2] 9
             (Matrix 2 2 [1; 2; 3; 4]) (1 # 1000)) []).1 = Some s'
    /\ fx s = fx s'
    /\ hess_fx s = hess_fx s'.
Proof.
  apply (outputs_are_fully_overwritten scenario_gradient scenario_f
           (fun _ => 0) (fun _ => 5) [1; 2] 0 9 (Matrix 0 0 [])
           (Matrix 2 2 [1; 2; 3; 4]) (1 # 1000)).
  apply scenario_gradient_sized.
Defined.

(** Checks that pass when the sizes agree, for a 1 by 1 [y], a 1 by 2 [F]
    and a 2 by 2 [G], with stores that take every write. *)
Lemma gaussian_dlm_log_never_returns_witness :
  (forall fuel (m0 : Z -> Q) (C0 : Z -> Q),
     gaussian_dlm_log
       (fun m i v => Some (fun a => if (a =? i)%Z then v else m a))
       (write_raw 2)
       (fun i j lp => if (i =? j)%Z then Pass lp else Reject lp)
       (fun _ lp => Pass lp) true true (1 # 2)
       (fun _ _ lp => Returned lp) 1 1 1 2 2 2
       (Matrix 1 1 [1]) (Matrix 2 2 [1; 0; 0; 1]) fuel m0 C0 = Stopped
     \/ gaussian_dlm_log
          (fun m i v => Some (fun a => if (a =? i)%Z then v else m a))
          (write_raw 2)
          (fun i j lp => if (i =? j)%Z then Pass lp else Reject lp)
          (fun _ lp => Pass lp) true true (1 # 2)
          (fun _ _ lp => Returned lp) 1 1 1 2 2 2
          (Matrix 1 1 [1]) (Matrix 2 2 [1; 0; 0; 1]) fuel m0 C0
        = Unfinished)
  /\ ((forall (m : Z -> Q) i v,
         is_Some (Some (fun a => if (a =? i)%Z then v else m a))) ->
      (forall (C : Z -> Q) i j v, is_Some (write_raw 2 C i j v)) ->
      forall fuel (m0 : Z -> Q) (C0 : Z -> Q),
        gaussian_dlm_log
          (fun m i v => Some (fun a => if (a =? i)%Z then v else m a))
          (write_raw 2)
          (fun i j lp => if (i =? j)%Z then Pass lp else Reject lp)
          (fun _ lp => Pass lp) true true (1 # 2)
          (fun _ _ lp => Returned lp) 1 1 1 2 2 2
          (Matrix 1 1 [1]) (Matrix 2 2 [1; 0; 0; 1]) fuel m0 C0
        = Unfinished).
Proof.
  apply (gaussian_dlm_log_never_returns
           (fun (m : Z -> Q) i v =>
              Some (fun a => if (a =? i)%Z then v else m a))
           (write_raw 2)
           (fun i j lp => if (i =? j)%Z then Pass lp else Reject lp)
           (fun _ lp => Pass lp) true true (1 # 2)
           (fun _ _ lp => Returned lp) 1 1 1 2 2 2
           (Matrix 1 1 [1]) (Matrix 2 2 [1; 0; 0; 1]) 0).
  - reflexivity.
  - lia.
  - lia.
  - reflexivity.
Defined.

Lemma gaussian_dlm_log_returned_value_witness :
  gaussian_dlm_log
    (fun (m : Z -> Q) i v => Some (fun a => if (a =? i)%Z then v else m a))
    (write_raw 2)
    (fun i j lp => if (i =? j)%Z then Pass lp else Reject lp)
    (fun _ lp => Pass lp) true false (1 # 2)
    (fun _ _ lp => Returned lp) 1 3 1 2 2 2
    (Matrix 1 1 [1]) (Matrix 2 2 [1; 0; 0; 1]) 0 (fun _ => 0) (fun _ => 0)
    = Returned (3 # 2)
  <-> checks (fun i j lp => if (i =? j)%Z then Pass lp else Reject lp)
        (fun _ lp => Pass lp) 1 1 2 2 2
        (Matrix 1 1 [1]) (Matrix 2 2 [1; 0; 0; 1]) = Reject (3 # 2)
      \/ exists lp0,
           checks (fun i j lp => if (i =? j)%Z then Pass lp else Reject lp)
             (fun _ lp => Pass lp) 1 1 2 2 2
             (Matrix 1 1 [1]) (Matrix 2 2 [1; 0; 0; 1]) = Pass lp0
           /\ (((1 = 0 \/ 3 = 0)%Z /\ 3 # 2 = lp0)
               \/ ((1 <= 1)%Z /\ (1 <= 3)%Z
                   /\ false = false
                   /\ 3 # 2 = sadd lp0
                                (smul (smul (1 # 2) (lit (wrap32 1)))
                                   (lit (wrap32 3))))).
Proof.
  apply (gaussian_dlm_log_returned_value
           (fun (m : Z -> Q) i v =>
              Some (fun a => if (a =? i)%Z then v else m a))
           (write_raw 2)
           (fun i j lp => if (i =? j)%Z then Pass lp else Reject lp)
           (fun _ lp => Pass lp) true false (1 # 2)
           (fun _ _ lp => Returned lp) 1 3 1 2 2 2
           (Matrix 1 1 [1]) (Matrix 2 2 [1; 0; 0; 1]) 0
           (fun _ => 0) (fun _ => 0) (3 # 2)); lia.
Defined.

Lemma zero_m_runs_to_the_size_of_y_witness :
  zero_m write_m_checked 2 1 5 0 [5; 6; 7]
    = (if decide (2 <= length [5; 6; 7])%nat
       then Finished (replicate 2 (lit 0) ++ drop 2 [5; 6; 7])
       else AssertionFailed)
  /\ zero_m write_m_checked 2 2 5 0 [5; 6; 7]
     = (if decide (4 <= length [5; 6; 7])%nat
        then Finished (replicate 4 (lit 0) ++ drop 4 [5; 6; 7])
        else AssertionFailed).
Proof.
  split.
  - apply (zero_m_runs_to_the_size_of_y 2 1 5 2 [5; 6; 7]);
      [reflexivity|reflexivity|lia].
  - apply (zero_m_runs_to_the_size_of_y 2 2 5 4 [5; 6; 7]);
      [reflexivity|reflexivity|lia].
Defined.

Lemma gaussian_dlm_log_checked_stops_witness :
  gaussian_dlm_log write_m_checked write_checked
    (fun i j lp => if (i =? j)%Z then Pass lp else Reject lp)
    (fun _ lp => Pass lp) true true (1 # 2)
    (fun _ _ lp => Returned lp) 1 1 1 2 2 2
    (Matrix 1 1 [1]) (Matrix 2 2 [1; 0; 0; 1]) 10 [5; 6]
    (Matrix 2 2 [1; 2; 3; 4])
  = Stopped.
Proof.
  apply (gaussian_dlm_log_checked_stops
           (fun i j lp => if (i =? j)%Z then Pass lp else Reject lp)
           (fun _ lp => Pass lp) true (1 # 2)
           (fun _ _ lp => Returned lp) 1 1 1 2 2 2
           (Matrix 1 1 [1]) (Matrix 2 2 [1; 0; 0; 1]) 0 1 2 10 [5; 6]
           (Matrix 2 2 [1; 2; 3; 4]));
    (reflexivity || lia).
Defined.

Lemma fill_C_writes_only_column_0_witness :
  steps write_checked 1 1 3 (Outer 0) (Matrix 2 2 [9; 9; 9; 9])
    = (Inner 2 0, Matrix 2 2 [1; 0; 9; 9]).
Proof.
  exact (fill_C_writes_only_column_0 1 1 2 2 [9; 9; 9; 9]
           ltac:(lia) ltac:(lia) ltac:(reflexivity) ltac:(reflexivity)
           ltac:(lia)).
Defined.
End RationalInstances.

Section RealInstances.
Local Open Scope R_scope.

(** [f(p) = p0^3] in one dimension, with its gradient [3 p0^2]. *)
Lemma stencil_is_fourth_order_witness :
  exists s,
    (run (fun _ p => (0, [3 * coord p 0 ^ 2])) (fun p => coord p 0 ^ 3)
       (finite_diff_hessian_AD (fun _ => 0) [1] 0 (Matrix 0 0 [])
          (1 / 10)) []).1 = Some s
    /\ coeff (hess_fx s) 0 0 = Some (6 - 4 * 0 * (1 / 10) ^ 4).
Proof.
  apply (stencil_is_fourth_order
           (fun _ p => (0, [3 * coord p 0 ^ 2])) (fun p => coord p 0 ^ 3)
           (fun _ => 0) [1] 0 (Matrix 0 0 []) (1 / 10) 0 0 1 3 6 3 0 0 0).
  - intros n p Hp. reflexivity.
  - reflexivity.
  - simpl. lia.
  - lra.
  - intros n t. cbn. f_equal. ring.
Defined.

Lemma step_sign_is_irrelevant_witness :
  exists s s',
    (run scenario_gradient scenario_f
       (finite_diff_hessian_AD (fun _ => 0) [1; 2] 0 (Matrix 0 0 [])
          (1 / 1000)) []).1 = Some s
    /\ (run scenario_gradient scenario_f
          (finite_diff_hessian_AD (fun _ => 0) [1; 2] 0 (Matrix 0 0 [])
             (- (1 / 1000))) []).1 = Some s'
    /\ fx s' = fx s
    /\ hess_fx s' = hess_fx s.
Proof.
  apply (step_sign_is_irrelevant scenario_gradient scenario_f
           (fun _ => 0) [1; 2] 0 (Matrix 0 0 []) (1 / 1000)).
  - apply scenario_gradient_sized.
  - reflexivity.
Defined.


(** The scenario is also [p^T A p] for the triangular matrix with rows
    [(1, 1)] and [(0, 1)]. *)
Lemma scenario_f_triangular (p : list R) :
  length p = 2%nat ->
  scenario_f p = quadratic_form (Matrix 2 2 [1; 0; 1; 1]) p.
Proof.
  destruct p as [|a [|b [|c p]]]; intros Hp; simplify_eq/=.
  unfold quadratic_form, row_times, coord, entry. cbn. lra.
Qed.

Lemma hessian_of_any_quadratic_form_witness :
  exists s,
    (run scenario_gradient scenario_f
       (finite_diff_hessian_AD (fun _ => 0) [1; 2] 0 (Matrix 0 0 [])
          (- (1 / 1000))) []).1 = Some s
    /\ forall r c, (r < 2)%nat -> (c < 2)%nat ->
         coeff (hess_fx s) r c
           = Some (entry (Matrix 2 2 [1; 0; 1; 1]) r c
                   + entry (Matrix 2 2 [1; 0; 1; 1]) c r).
Proof.
  apply (hessian_of_any_quadratic_form (Matrix 2 2 [1; 0; 1; 1])
           scenario_f scenario_gradient (fun _ => 0) [1; 2] 0
           (Matrix 0 0 []) (- (1 / 1000))).
  - reflexivity.
  - reflexivity.
  - apply scenario_f_triangular.
  - apply scenario_gradient_exact.
  - lra.
Defined.
End RealInstances.
